(** * WasherCodes: the lookup logic of [src/pages/service.js]

    A shallow embedding of the cascading drop-downs and of the text search
    of the page script, with the properties its specification states.

    Strings are JavaScript strings restricted to code units below 256 (the
    Latin-1 part of UTF-16): a [string] is the sequence of its code units,
    [String.length] is [.length], [=] is [===], and the order used by
    [Array.prototype.sort] without comparator is the code-unit order
    [String.le]. *)

From Stdlib Require Import Ascii String NArith.
From stdpp Require Import base decidable option list strings sorting relations.

#[local] Set Warnings "-clear-no-such-hyp".

Local Open Scope string_scope.
Local Open Scope nat_scope.
Local Open Scope list_scope.
Local Open Scope stdpp_scope.

(** ** JavaScript string operations *)

Module JsString.

(** White space removed by [String.prototype.trim]: TAB, LF, VT, FF, CR,
    SPACE and NO-BREAK SPACE are the ones below 256. *)
Definition is_white_space (c : ascii) : bool :=
  bool_decide (N_of_ascii c ∈ [9; 10; 11; 12; 13; 32; 160]%N).

(** Simple lower-case mapping of one code unit: A-Z, and the Latin-1
    capitals U+00C0..U+00DE except the multiplication sign U+00D7. *)
Definition lower_char (c : ascii) : ascii :=
  let n := N_of_ascii c in
  if ((65 <=? n) && (n <=? 90) ||
      (192 <=? n) && (n <=? 222) && negb (n =? 215))%N
  then ascii_of_N (n + 32) else c.

Fixpoint toLowerCase (s : string) : string :=
  match s with
  | "" => ""
  | String c s' => String (lower_char c) (toLowerCase s')
  end.

Fixpoint trimStart (s : string) : string :=
  match s with
  | "" => ""
  | String c s' => if is_white_space c then trimStart s' else s
  end.

Fixpoint trimEnd (s : string) : string :=
  match s with
  | "" => ""
  | String c s' =>
      match trimEnd s' with
      | "" => if is_white_space c then "" else String c ""
      | t => String c t
      end
  end.

Definition trim (s : string) : string := trimEnd (trimStart s).

(** [starts q s]: [s.startsWith(q)]. *)
Fixpoint starts (q s : string) : bool :=
  match q, s with
  | "", _ => true
  | String _ _, "" => false
  | String a q', String b s' => bool_decide (a = b) && starts q' s'
  end.

(** [includes s q]: [s.includes(q)], whether [q] starts at some position
    of [s]. *)
Fixpoint includes (s q : string) : bool :=
  starts q s ||
  match s with
  | "" => false
  | String _ s' => includes s' q
  end.

End JsString.

Import JsString.

(** ** The catalog *)

Record Entry := mkEntry {
  brand : string;
  type : string;
  code : string;
  issue : string;
  fix_summary : string;
  parts_needed : list string;
  affiliate_link : string;
  video_guide : string
}.

Global Instance Entry_eq_dec : EqDecision Entry.
Proof. solve_decision. Defined.

(** [new Set(l)] spread back into an array: the elements of [l] in the
    order of their first insertion. *)
Definition Set_add {A} `{EqDecision A} (acc : list A) (x : A) : list A :=
  if decide (x ∈ acc) then acc else acc ++ [x].

Definition Set_of {A} `{EqDecision A} (l : list A) : list A :=
  foldl Set_add [] l.

(** [Array.prototype.sort()] on strings: stable, by code units. *)
Definition sort (l : list string) : list string := merge_sort String.le l.

(** ** The queries, as the handlers compute them *)

Section Queries.

Variable DB : list Entry.

(** [populateBrands], the constant [brands]. *)
Definition listBrands : list string := sort (Set_of (brand <$> DB)).

(** [updateTypes], the constant [availableTypes]. *)
Definition availableTypes (selectedBrand : string) : list string :=
  Set_of (type <$> filter (λ item, brand item = selectedBrand) DB).

(** [updateTypes], the types offered for a brand: none when
    [!selectedBrand]. *)
Definition listTypes (selectedBrand : string) : list string :=
  if decide (selectedBrand = "") then [] else availableTypes selectedBrand.

(** [updateCodes], the constant [codes]. *)
Definition codes (selectedBrand selectedType : string) : list Entry :=
  filter (λ item, brand item = selectedBrand ∧ type item = selectedType) DB.

(** [updateCodes], the entries offered for a brand and a type: none when
    [!selectedBrand || !selectedType]. *)
Definition listCodes (selectedBrand selectedType : string) : list Entry :=
  if decide (selectedBrand = "" ∨ selectedType = "") then []
  else codes selectedBrand selectedType.

(** [renderSolution], the constant [entry]. *)
Definition findExact (b t c : string) : option Entry :=
  snd <$> list_find (λ item, brand item = b ∧ type item = t ∧ code item = c) DB.

(** [handleSearch], the constants [q], [fullString] and [match]. *)
Definition normalize (query : string) : string := trim (toLowerCase query).

Definition fullString (item : Entry) : string :=
  toLowerCase
    (brand item +:+ " " +:+ code item +:+ " " +:+ issue item +:+ " " +:+ fix_summary item).

Definition findMatch (q : string) : option (nat * Entry) :=
  list_find (λ item, includes (fullString item) q = true) DB.

Definition searchText (query : string) : option Entry :=
  let q := normalize query in
  if decide (String.length q < 2) then None
  else snd <$> findMatch q.

End Queries.

(** ** The page: drop-downs and solution card *)

(** The part of [HTMLSelectElement] the script uses, for a drop-down
    (single selection, display size 1). *)
Module Dom.

(** [new Option(text, value)]. *)
Record OptionEl := Option { text : string; value : string }.

Record Select := mkSelect {
  options : list OptionEl;
  selectedIndex : option nat;
  disabled : bool
}.

(** [sel.value]: the value of the selected option, [""] without one. *)
Definition get_value (sel : Select) : string :=
  default "" (value <$> (selectedIndex sel ≫= λ i, options sel !! i)).

(** [sel.value = v]: selects the first option whose value is [v]; no
    option stays selected when there is none. *)
Definition set_value (v : string) (sel : Select) : Select :=
  mkSelect (options sel)
           (fst <$> list_find (λ o, value o = v) (options sel))
           (disabled sel).

(** [sel.add(o)]: appends [o]; a drop-down left without selection selects
    its first option. *)
Definition add (o : OptionEl) (sel : Select) : Select :=
  mkSelect (options sel ++ [o])
           (match selectedIndex sel with None => Some 0 | i => i end)
           (disabled sel).

(** [sel.innerHTML = '<option value="">label</option>']: one option,
    which the drop-down selects. *)
Definition set_placeholder (label : string) (sel : Select) : Select :=
  mkSelect [Option label ""] (Some 0) (disabled sel).

Definition set_disabled (d : bool) (sel : Select) : Select :=
  mkSelect (options sel) (selectedIndex sel) d.

(** The user picks the option at position [i]. *)
Definition pick (i : nat) (sel : Select) : Select :=
  mkSelect (options sel) (Some i) (disabled sel).

End Dom.

Import Dom.

(** The content of [els.resParts]: one tag per part, or the notice that no
    part is listed. *)
Inductive PartsView :=
  | PartsTags (parts : list string)
  | PartsNotice.

Record State := mkState {
  DB : list Entry;
  els_brand : Select;
  els_type : Select;
  els_code : Select;
  card_hidden : bool;
  resCode : string;
  resIssue : string;
  resFix : string;
  resParts : PartsView;
  btnBuy : string;
  btnVideo : string
}.

Definition with_DB (data : list Entry) (s : State) : State :=
  mkState data (els_brand s) (els_type s) (els_code s) (card_hidden s)
          (resCode s) (resIssue s) (resFix s) (resParts s) (btnBuy s) (btnVideo s).

Definition on_brand (f : Select → Select) (s : State) : State :=
  mkState (DB s) (f (els_brand s)) (els_type s) (els_code s) (card_hidden s)
          (resCode s) (resIssue s) (resFix s) (resParts s) (btnBuy s) (btnVideo s).

Definition on_type (f : Select → Select) (s : State) : State :=
  mkState (DB s) (els_brand s) (f (els_type s)) (els_code s) (card_hidden s)
          (resCode s) (resIssue s) (resFix s) (resParts s) (btnBuy s) (btnVideo s).

Definition on_code (f : Select → Select) (s : State) : State :=
  mkState (DB s) (els_brand s) (els_type s) (f (els_code s)) (card_hidden s)
          (resCode s) (resIssue s) (resFix s) (resParts s) (btnBuy s) (btnVideo s).

Definition hideSolution (s : State) : State :=
  mkState (DB s) (els_brand s) (els_type s) (els_code s) true
          (resCode s) (resIssue s) (resFix s) (resParts s) (btnBuy s) (btnVideo s).

(** [renderSolution] from "1. Populate Text" on; scrolling leaves the
    modelled state alone. *)
Definition showEntry (entry : Entry) (s : State) : State :=
  mkState (DB s) (els_brand s) (els_type s) (els_code s) false
          (code entry) (issue entry) (fix_summary entry)
          (match parts_needed entry with
           | [] => PartsNotice
           | parts => PartsTags parts
           end)
          (affiliate_link entry) (video_guide entry).

Definition renderSolution (s : State) : State :=
  match findExact (DB s) (get_value (els_brand s)) (get_value (els_type s))
                  (get_value (els_code s)) with
  | None => hideSolution s
  | Some entry => showEntry entry s
  end.

Definition codeOption (item : Entry) : OptionEl :=
  Option (code item +:+ " - " +:+ issue item) (code item).

(** A parameter defaulting to [null] is an [option]; [null] and [""] are
    the values that fail the test [if (preSelectedCode)]. *)
Definition updateCodes (preSelectedCode : option string) (s : State) : State :=
  let s := on_code (set_placeholder "Select Code") s in
  let s := on_code (set_disabled true) s in
  let s := hideSolution s in
  let selectedBrand := get_value (els_brand s) in
  let selectedType := get_value (els_type s) in
  if decide (selectedBrand = "" ∨ selectedType = "") then s
  else
    let codes := codes (DB s) selectedBrand selectedType in
    let s := foldl (λ s item, on_code (add (codeOption item)) s) s codes in
    let s := on_code (set_disabled false) s in
    match preSelectedCode with
    | Some c =>
        if decide (c = "") then s
        else renderSolution (on_code (set_value c) s)
    | None => s
    end.

Definition updateTypes (preSelectedType : option string) (s : State) : State :=
  let s := on_type (set_placeholder "Select Type") s in
  let s := on_code (set_placeholder "--") s in
  let s := on_type (set_disabled true) s in
  let s := on_code (set_disabled true) s in
  let s := hideSolution s in
  let selectedBrand := get_value (els_brand s) in
  if decide (selectedBrand = "") then s
  else
    let availableTypes := availableTypes (DB s) selectedBrand in
    let s := foldl (λ s t, on_type (add (Option t t)) s) s availableTypes in
    let s := on_type (set_disabled false) s in
    match preSelectedType with
    | Some t =>
        if decide (t ≠ "" ∧ t ∈ availableTypes)
        then updateCodes None (on_type (set_value t) s)
        else s
    | None => s
    end.

Definition populateBrands (s : State) : State :=
  foldl (λ s b, on_brand (add (Option b b)) s) s (listBrands (DB s)).

(** [fetchData], the handler of a successful response. *)
Definition load (data : list Entry) (s : State) : State :=
  populateBrands (with_DB data s).

(** [handleSearch]: the state when the handler returns, and the code that
    the callback given to [setTimeout] will select, when one is scheduled. *)
Definition handleSearch (query : string) (s : State) : State * option string :=
  let q := normalize query in
  if decide (String.length q < 2) then (s, None)
  else
    match findMatch (DB s) q with
    | Some (_, m) =>
        let s := on_brand (set_value (brand m)) s in
        (updateTypes (Some (type m)) s, Some (code m))
    | None => (s, None)
    end.

(** The callback of [handleSearch], run by the timer. *)
Definition searchTimeout (c : string) (s : State) : State :=
  renderSolution (on_code (set_value c) s).

(** A search and its timer, with nothing in between. *)
Definition searchAndRender (query : string) (s : State) : State :=
  match handleSearch query s with
  | (s, Some c) => searchTimeout c s
  | (s, None) => s
  end.

(** ** Vocabulary of the statements *)

(** [q] occurs in [s] as a substring. *)
Definition substring_of (q s : string) : Prop :=
  ∃ pre post, s = pre +:+ q +:+ post.

(** [item] has brand [b], type [t] and code [c]. *)
Definition has_key (b t c : string) (item : Entry) : Prop :=
  brand item = b ∧ type item = t ∧ code item = c.

(** No two positions of the catalog hold the same (brand, type, code). *)
Definition unique_keys (DB : list Entry) : Prop :=
  ∀ i j e1 e2, DB !! i = Some e1 → DB !! j = Some e2 →
    has_key (brand e1) (type e1) (code e1) e2 → i = j.

(** The solution card is visible and shows [entry]. *)
Definition displays (entry : Entry) (s : State) : Prop :=
  card_hidden s = false ∧
  resCode s = code entry ∧ resIssue s = issue entry ∧
  resFix s = fix_summary entry ∧
  resParts s = match parts_needed entry with
               | [] => PartsNotice
               | parts => PartsTags parts
               end ∧
  btnBuy s = affiliate_link entry ∧ btnVideo s = video_guide entry.

(** A search for [query] ends with the card showing the first entry that
    has the key of the entry found. *)
Definition renders_found_key (s : State) (query : string) : Prop :=
  ∀ m, searchText (DB s) query = Some m →
    ∃ e, findExact (DB s) (brand m) (type m) (code m) = Some e ∧
         displays e (searchAndRender query s).

(** The brand drop-down offers the brand of every catalog entry. *)
Definition brands_populated (s : State) : Prop :=
  ∀ e, e ∈ DB s → ∃ o, o ∈ options (els_brand s) ∧ value o = brand e.

(** What a handler other than the loader leaves alone: the catalog and
    the options of the brand drop-down. *)
Definition keeps_brands (s s' : State) : Prop :=
  DB s' = DB s ∧ options (els_brand s') = options (els_brand s).

(** ** The page as a transition system

    One step is one run of a handler: the response of [fetch], a change
    of one of the three drop-downs by the user, a search, the callback of
    a search, or a call of [window.showSolution]. *)
Inductive step : State → State → Prop :=
  | step_load data s :
      step s (load data s)
  | step_brand i s :
      i < length (options (els_brand s)) →
      step s (updateTypes None (on_brand (pick i) s))
  | step_type i s :
      disabled (els_type s) = false →
      i < length (options (els_type s)) →
      step s (updateCodes None (on_type (pick i) s))
  | step_code i s :
      disabled (els_code s) = false →
      i < length (options (els_code s)) →
      step s (renderSolution (on_code (pick i) s))
  | step_search query s :
      step s (handleSearch query s).1
  | step_timeout c s :
      step s (searchTimeout c s)
  | step_show s :
      step s (renderSolution s).

(** The states of a page that started with [let DB = []]. *)
Definition reachable (s : State) : Prop :=
  ∃ s0, DB s0 = [] ∧ rtc step s0 s.

(** ** The listeners of [setupEventListeners]

    A [change] listener runs after the user picked the option at some
    position of its drop-down. *)
Definition brandChanged (i : nat) (s : State) : State :=
  updateTypes None (on_brand (pick i) s).

Definition typeChanged (j : nat) (s : State) : State :=
  updateCodes None (on_type (pick j) s).

Definition codeChanged (k : nat) (s : State) : State :=
  renderSolution (on_code (pick k) s).

(** One run of a handler on a loaded page: the steps of [step] but the
    arrival of the catalog. *)
Inductive interact : State → State → Prop :=
  | interact_brand i s :
      i < length (options (els_brand s)) →
      interact s (brandChanged i s)
  | interact_type j s :
      disabled (els_type s) = false →
      j < length (options (els_type s)) →
      interact s (typeChanged j s)
  | interact_code k s :
      disabled (els_code s) = false →
      k < length (options (els_code s)) →
      interact s (codeChanged k s)
  | interact_search query s :
      interact s (handleSearch query s).1
  | interact_timeout c s :
      interact s (searchTimeout c s)
  | interact_show s :
      interact s (renderSolution s).

(** A visible card shows the entry that the key read from the three
    drop-downs finds. *)
Definition card_current (s : State) : Prop :=
  card_hidden s = false →
  ∃ e, findExact (DB s) (get_value (els_brand s)) (get_value (els_type s))
                 (get_value (els_code s)) = Some e ∧
       displays e s.

(** The search box: [timeout] is the value captured by the live timer of
    the [input] listener, if there is one (a timer that has run is as good
    as none for [clearTimeout]); [renders] are the codes of the callbacks
    of [handleSearch] that have not run yet, oldest first. *)
Record Page := mkPage {
  page_state : State;
  timeout : option string;
  renders : list string
}.

(** The user types, leaving [v] in the box; the timer of the listener
    expires; the timer of a search expires. *)
Inductive Event :=
  | Typed (v : string)
  | SearchDue
  | RenderDue.

Definition react (p : Page) (ev : Event) : Page :=
  match ev with
  | Typed v => mkPage (page_state p) (Some v) (renders p)
  | SearchDue =>
      match timeout p with
      | Some v =>
          let (s, c) := handleSearch v (page_state p) in
          mkPage s None (renders p ++ option_list c)
      | None => p
      end
  | RenderDue =>
      match renders p with
      | c :: rest => mkPage (searchTimeout c (page_state p)) (timeout p) rest
      | [] => p
      end
  end.

Definition run (p : Page) (evs : list Event) : Page := foldl react p evs.

(** Every code unit of [s] is white space. *)
Fixpoint blank (s : string) : bool :=
  match s with
  | "" => true
  | String c s' => is_white_space c && blank s'
  end.

(** [f] changes none of the fields that [handleSearch] reads. *)
Definition keeps_search_fields (f : Entry → Entry) : Prop :=
  ∀ e, brand (f e) = brand e ∧ code (f e) = code e ∧
       issue (f e) = issue e ∧ fix_summary (f e) = fix_summary e.

(** ** The words of the specification about the search

    A second description of what [handleSearch] looks for, written from
    the specification and not from the script: a table for the lower-case
    letters, the trimmed part of a query as the part left between two runs
    of white space, the four fields joined by single spaces. *)

Module Spec.

(** [n] consecutive code units from [a]. *)
Definition units_from (a : N) (n : nat) : list N :=
  (λ k, (a + N.of_nat k)%N) <$> seq 0 n.

(** Capital and small letter, pair by pair: A-Z, and the Latin-1 letters
    U+00C0..U+00D6 and U+00D8..U+00DE. *)
Definition lower_case_table : list (N * N) :=
  zip (units_from 65 26) (units_from 97 26) ++
  zip (units_from 192 23) (units_from 224 23) ++
  zip (units_from 216 7) (units_from 248 7).

Definition lower_unit (c : ascii) : ascii :=
  match list_find (λ p : N * N, p.1 = N_of_ascii c) lower_case_table with
  | Some (_, p) => ascii_of_N p.2
  | None => c
  end.

Fixpoint lower_cased (s : string) : string :=
  match s with
  | "" => ""
  | String c s' => String (lower_unit c) (lower_cased s')
  end.

(** [t] neither starts nor ends with white space. *)
Definition clean_ends (t : string) : Prop :=
  (∀ c r, t = String c r → is_white_space c = false) ∧
  (∀ r c, t = r +:+ String c "" → is_white_space c = false).

(** [t] is [s] trimmed: [s] without the white space around it. *)
Definition trimmed (s t : string) : Prop :=
  ∃ pre post, s = pre +:+ t +:+ post ∧
    blank pre = true ∧ blank post = true ∧ clean_ends t.

(** "{brand} {code} {issue} {fix_summary}". *)
Definition concatenation (item : Entry) : string :=
  brand item +:+ " " +:+ code item +:+ " " +:+ issue item +:+ " " +:+
  fix_summary item.

(** The lower-cased concatenation of [item] contains [q]. *)
Definition matches (q : string) (item : Entry) : Prop :=
  substring_of q (lower_cased (concatenation item)).

End Spec.

(** ** The queries over parsed JSON

    The same five computations over what [response.json()] may hold, where
    reading a property can throw: an item of the array is [null] or an
    object, a property of an object is a string or, when absent,
    [undefined]. Other JSON values are left out, and so is
    [parts_needed], an array that no query reads. *)

Module Js.

Inductive Field :=
  | Undefined
  | Str (s : string).

Global Instance Field_eq_dec : EqDecision Field.
Proof. solve_decision. Defined.

Global Instance Str_inj : Inj (=) (=) Str.
Proof. by intros s1 s2 [= ->]. Qed.

Inductive Item :=
  | Null
  | Obj (props : string → Field).

(** The outcome of evaluating an expression: a value, or a [TypeError]
    thrown. *)
Inductive Completion (A : Type) :=
  | Normal (a : A)
  | ThrowTypeError.
Global Arguments Normal {A} a.
Global Arguments ThrowTypeError {A}.

Definition bind {A B} (m : Completion A) (k : A → Completion B) : Completion B :=
  match m with
  | Normal a => k a
  | ThrowTypeError => ThrowTypeError
  end.

(** [item.name]. *)
Definition get (item : Item) (name : string) : Completion Field :=
  match item with
  | Null => ThrowTypeError
  | Obj props => Normal (props name)
  end.

(** [ToString], as a template literal applies it. *)
Definition ToString (v : Field) : string :=
  match v with
  | Undefined => "undefined"
  | Str s => s
  end.

(** [v === s] for a string [s]. *)
Definition strict_eq (v : Field) (s : string) : bool := bool_decide (v = Str s).

(** [Array.prototype.map], [filter] and [find] with a callback that may
    throw: the elements are visited in order and the first throw ends the
    call. *)
Fixpoint array_map {A B} (f : A → Completion B) (l : list A) : Completion (list B) :=
  match l with
  | [] => Normal []
  | x :: l =>
      bind (f x) (λ y, bind (array_map f l) (λ ys, Normal (y :: ys)))
  end.

Fixpoint array_filter {A} (f : A → Completion bool) (l : list A) : Completion (list A) :=
  match l with
  | [] => Normal []
  | x :: l =>
      bind (f x) (λ keep,
        bind (array_filter f l) (λ xs, Normal (if keep then x :: xs else xs)))
  end.

Fixpoint array_find {A} (f : A → Completion bool) (l : list A) : Completion (option A) :=
  match l with
  | [] => Normal None
  | x :: l =>
      bind (f x) (λ found, if found then Normal (Some x) else array_find f l)
  end.

Definition field_string (v : Field) : option string :=
  match v with
  | Undefined => None
  | Str s => Some s
  end.

(** [Array.prototype.sort()]: the strings in code-unit order, then the
    [undefined] elements. *)
Definition array_sort (l : list Field) : list Field :=
  (Str <$> sort (omap field_string l)) ++
  filter (λ v, v = Undefined) l.

(** [populateBrands], the constant [brands]. *)
Definition listBrands (DB : list Item) : Completion (list Field) :=
  bind (array_map (λ item, get item "brand") DB) (λ brands,
    Normal (array_sort (Set_of brands))).

(** [updateTypes], the constant [availableTypes], behind the guard. *)
Definition listTypes (DB : list Item) (selectedBrand : string)
    : Completion (list Field) :=
  if decide (selectedBrand = "") then Normal []
  else
    bind (array_filter (λ item,
            bind (get item "brand") (λ b, Normal (strict_eq b selectedBrand)))
            DB) (λ items,
    bind (array_map (λ item, get item "type") items) (λ types,
      Normal (Set_of types))).

(** [updateCodes], the constant [codes], behind the guard. *)
Definition listCodes (DB : list Item) (selectedBrand selectedType : string)
    : Completion (list Item) :=
  if decide (selectedBrand = "" ∨ selectedType = "") then Normal []
  else
    array_filter (λ item,
      bind (get item "brand") (λ b,
        if strict_eq b selectedBrand
        then bind (get item "type") (λ t, Normal (strict_eq t selectedType))
        else Normal false))
      DB.

(** [renderSolution], the constant [entry]. *)
Definition findExact (DB : list Item) (b t c : string) : Completion (option Item) :=
  array_find (λ item,
    bind (get item "brand") (λ vb,
      if strict_eq vb b
      then bind (get item "type") (λ vt,
             if strict_eq vt t
             then bind (get item "code") (λ vc, Normal (strict_eq vc c))
             else Normal false)
      else Normal false))
    DB.

(** [handleSearch], the constant [fullString]. *)
Definition fullString (item : Item) : Completion string :=
  bind (get item "brand") (λ vb,
  bind (get item "code") (λ vc,
  bind (get item "issue") (λ vi,
  bind (get item "fix_summary") (λ vf,
    Normal (toLowerCase
      (ToString vb +:+ " " +:+ ToString vc +:+ " " +:+ ToString vi +:+ " " +:+
       ToString vf)))))).

(** [handleSearch], the constant [match]. *)
Definition searchText (DB : list Item) (query : string) : Completion (option Item) :=
  let q := normalize query in
  if decide (String.length q < 2) then Normal None
  else
    array_find (λ item, bind (fullString item) (λ text, Normal (includes text q))) DB.

(** An entry as the object that JSON gives for it. *)
Definition encode (e : Entry) : Item :=
  Obj (λ name,
    if decide (name = "brand") then Str (brand e)
    else if decide (name = "type") then Str (type e)
    else if decide (name = "code") then Str (code e)
    else if decide (name = "issue") then Str (issue e)
    else if decide (name = "fix_summary") then Str (fix_summary e)
    else if decide (name = "affiliate_link") then Str (affiliate_link e)
    else if decide (name = "video_guide") then Str (video_guide e)
    else Undefined).

Definition is_object (item : Item) : Prop :=
  match item with
  | Null => False
  | Obj _ => True
  end.

(** The value of [item.name] when [item] is an object. *)
Definition prop (name : string) (item : Item) : Field :=
  match item with
  | Null => Undefined
  | Obj props => props name
  end.

(** What the callbacks of the queries compute on an object. *)
Definition brand_is (b : string) (item : Item) : bool :=
  strict_eq (prop "brand" item) b.

Definition brand_type_are (b t : string) (item : Item) : bool :=
  if strict_eq (prop "brand" item) b then strict_eq (prop "type" item) t
  else false.

Definition key_is (b t c : string) (item : Item) : bool :=
  if strict_eq (prop "brand" item) b
  then if strict_eq (prop "type" item) t
       then strict_eq (prop "code" item) c
       else false
  else false.

Definition text (item : Item) : string :=
  toLowerCase
    (ToString (prop "brand" item) +:+ " " +:+ ToString (prop "code" item) +:+ " " +:+
     ToString (prop "issue" item) +:+ " " +:+ ToString (prop "fix_summary" item)).

(** [item] is an object whose brand, type and code are the strings [b],
    [t] and [c]. *)
Definition has_key (b t c : string) (item : Item) : Prop :=
  prop "brand" item = Str b ∧ prop "type" item = Str t ∧ prop "code" item = Str c.

End Js.

(** ** Sample data *)

Module Sample.

Definition acme_f21 : Entry :=
  mkEntry "Acme" "Washer" "F21" "Long Drain Error" "Clean drain pump"
          ["Pump"] "https://shop.example/pump" "https://video.example/f21".

Definition acme_e01 : Entry :=
  mkEntry "Acme" "Dryer" "E01" "Door Open" "Close the door and check the drain hose"
          [] "" "".

Definition zanu_f21 : Entry :=
  mkEntry "Zanu" "Washer" "F21" "Drain Blocked" "Clear the drain filter"
          ["Filter"; "Hose"] "" "".

Definition acme_f05 : Entry :=
  mkEntry "Acme" "Washer" "F05" "Water Temperature" "Replace the sensor"
          ["Sensor"] "" "".

Definition catalog : list Entry := [zanu_f21; acme_f21; acme_e01; acme_f05].

(** A page before the catalog arrives: placeholders only, card hidden. *)
Definition blank_page : State :=
  mkState []
          (mkSelect [Option "Select Brand" ""] (Some 0) false)
          (mkSelect [Option "Select Type" ""] (Some 0) true)
          (mkSelect [Option "--" ""] (Some 0) true)
          true "" "" "" PartsNotice "" "".

Definition page : State := load catalog blank_page.

(** Entries whose brand, or type, is the empty string. *)
Definition no_brand : Entry :=
  mkEntry "" "Washer" "F21" "Long Drain Error" "Clean drain pump" ["Pump"] "" "".

Definition no_type : Entry :=
  mkEntry "Acme" "" "F21" "Long Drain Error" "Clean drain pump" ["Pump"] "" "".

Definition page_no_brand : State := load [no_brand] blank_page.
Definition page_no_type : State := load [no_type] blank_page.

(** Two entries under one key. *)
Definition twin_a : Entry :=
  mkEntry "Acme" "Washer" "F21" "Long Drain Error" "Clean drain pump" ["Pump"] "" "".

Definition twin_b : Entry :=
  mkEntry "Acme" "Washer" "F21" "Outlet Blocked" "Clear the outlet" [] "" "".

Definition page_twins : State := load [twin_a; twin_b] blank_page.

(** The loaded page after the user chose the brand Acme and the type
    Washer. *)
Definition page_acme_washer : State := typeChanged 1 (brandChanged 1 page).

End Sample.

(** * Properties *)

(** ** Strings *)

Section StringFacts.

Lemma white_space_lower c : is_white_space (lower_char c) = is_white_space c.
Proof. by destruct c as [[] [] [] [] [] [] [] []]. Qed.

Lemma toLowerCase_empty s : toLowerCase s = "" ↔ s = "".
Proof. by destruct s. Qed.

Lemma trimStart_lower s : trimStart (toLowerCase s) = toLowerCase (trimStart s).
Proof.
  induction s as [|c s IH]; simpl; [done|].
  rewrite white_space_lower. by destruct (is_white_space c).
Qed.

Lemma trimEnd_lower s : trimEnd (toLowerCase s) = toLowerCase (trimEnd s).
Proof.
  induction s as [|c s IH]; simpl; [done|].
  rewrite IH, white_space_lower.
  destruct (trimEnd s); simpl; [|done].
  by destruct (is_white_space c).
Qed.

(** Lower-casing and trimming commute: the script lower-cases first. *)
Lemma normalize_trim_lower query : normalize query = toLowerCase (trim query).
Proof. unfold normalize, trim. by rewrite trimStart_lower, trimEnd_lower. Qed.

Lemma starts_spec q s : starts q s = true ↔ ∃ post, s = q +:+ post.
Proof.
  revert s. induction q as [|a q IH]; intros s; simpl.
  - split; [eauto|done].
  - destruct s as [|b s]; simpl.
    + split; [done|]. by intros [post ?].
    + rewrite andb_true_iff, bool_decide_eq_true, IH. split.
      * intros [-> [post ->]]. eauto.
      * intros [post [= -> ->]]. eauto.
Qed.

Lemma includes_spec s q : includes s q = true ↔ substring_of q s.
Proof.
  unfold substring_of. induction s as [|c s IH]; simpl.
  - rewrite orb_false_r, starts_spec. split.
    + intros [post ->]. by exists "", post.
    + intros [[|??] [post Heq]]; simpl in Heq; [eauto|done].
  - rewrite orb_true_iff, starts_spec, IH. split.
    + intros [[post ->]|(pre & post & ->)].
      * by exists "", post.
      * by exists (String c pre), post.
    + intros [[|c' pre] [post Heq]]; simpl in Heq.
      * left. eauto.
      * right. injection Heq as -> ->. eauto.
Qed.

(** [String.le] is the lexicographic order of the code units. *)
Lemma le_empty s : String.le "" s.
Proof. by destruct s. Qed.

Lemma le_cons a s b t :
  String.le (String a s) (String b t) ↔
  (N_of_ascii a < N_of_ascii b)%N ∨ a = b ∧ String.le s t.
Proof.
  unfold String.le, String.leb. simpl. unfold Ascii.compare.
  destruct (N.compare_spec (N_of_ascii a) (N_of_ascii b)) as [Heq|Hlt|Hgt].
  - assert (a = b) as ->.
    { by rewrite <-(ascii_N_embedding a), <-(ascii_N_embedding b), Heq. }
    split; [by right|]. intros [?|[_ ?]]; [lia|done].
  - split; [by left|done].
  - split; [done|]. intros [?|[-> _]]; lia.
Qed.

Lemma le_cons_empty a s : ¬ String.le (String a s) "".
Proof. unfold String.le, String.leb. simpl. by intros []. Qed.

End StringFacts.

(** ** Sets and sorting *)

Section SetFacts.

Context {A : Type} `{EqDecision A}.
Implicit Types l acc : list A.

Lemma Set_of_snoc l x : Set_of (l ++ [x]) = Set_add (Set_of l) x.
Proof. unfold Set_of. by rewrite foldl_app. Qed.

Lemma elem_of_Set_of l x : x ∈ Set_of l ↔ x ∈ l.
Proof.
  induction l as [|y l IH] using rev_ind.
  - done.
  - rewrite Set_of_snoc. unfold Set_add. case_decide as Hin.
    + rewrite IH, elem_of_app, list_elem_of_singleton.
      split; [by left|]. intros [?| ->]; [done|]. by apply IH.
    + by rewrite !elem_of_app, IH.
Qed.

Lemma NoDup_Set_of l : NoDup (Set_of l).
Proof.
  induction l as [|y l IH] using rev_ind.
  - constructor.
  - rewrite Set_of_snoc. unfold Set_add. case_decide as Hin; [done|].
    apply NoDup_app. split_and!; [done| |apply NoDup_singleton].
    intros x Hx ->%list_elem_of_singleton. done.
Qed.

(** An element listed before another was inserted before the other's
    first insertion. *)
Lemma Set_of_first_seen l i j x y :
  Set_of l !! i = Some x → Set_of l !! j = Some y → i < j →
  ∃ l1 l2, l = l1 ++ x :: l2 ∧ y ∉ l1.
Proof.
  revert i j x y. induction l as [|z l IH] using rev_ind; intros i j x y.
  - done.
  - rewrite Set_of_snoc. unfold Set_add. case_decide as Hin.
    + intros Hi Hj Hlt. destruct (IH _ _ _ _ Hi Hj Hlt) as (l1 & l2 & -> & ?).
      exists l1, (l2 ++ [z]). by rewrite <-app_assoc.
    + intros Hi [[Hlen Hj]|[-> ->]]%lookup_snoc_Some Hlt.
      * apply lookup_snoc_Some in Hi as [[_ Hi]|[? _]]; [|lia].
        destruct (IH _ _ _ _ Hi Hj Hlt) as (l1 & l2 & -> & ?).
        exists l1, (l2 ++ [z]). by rewrite <-app_assoc.
      * apply lookup_snoc_Some in Hi as [[_ Hi]|[? _]]; [|lia].
        assert (x ∈ l) as (l1 & l2 & ->)%list_elem_of_split.
        { apply elem_of_Set_of. by eapply list_elem_of_lookup_2. }
        exists l1, (l2 ++ [y]). split; [by rewrite <-app_assoc|].
        intros Hy. apply Hin, elem_of_Set_of, elem_of_app. by left.
Qed.

Lemma Set_of_nil_iff l : Set_of l = [] ↔ l = [].
Proof.
  split; [|by intros ->]. intros Hnil. destruct l as [|x l]; [done|].
  assert (x ∈ Set_of (x :: l)) as Hx by (apply elem_of_Set_of; left).
  rewrite Hnil in Hx. by apply not_elem_of_nil in Hx.
Qed.

End SetFacts.

Section SortFacts.

Lemma sort_Permutation l : sort l ≡ₚ l.
Proof. apply merge_sort_Permutation. Qed.

Lemma sort_StronglySorted l : StronglySorted String.le (sort l).
Proof. apply (StronglySorted_merge_sort String.le). Qed.

Lemma StronglySorted_lookup_le (l : list string) i j x y :
  StronglySorted String.le l → l !! i = Some x → l !! j = Some y → i < j →
  String.le x y.
Proof.
  intros Hsorted. revert i j. induction Hsorted as [|a l _ IH Hall]; intros i j.
  - done.
  - destruct i as [|i], j as [|j]; simpl; try lia.
    + intros [= ->] Hy _. rewrite Forall_forall in Hall.
      eapply Hall, list_elem_of_lookup_2, Hy.
    + intros ?? ?. eapply IH; [done..|lia].
Qed.

(** The algorithm of [Array.prototype.sort] is left to the engine: every
    ascending arrangement of the strings is the one computed here. *)
Lemma sort_unique l k :
  k ≡ₚ l → StronglySorted String.le k → k = sort l.
Proof.
  intros Hperm Hsorted.
  apply (StronglySorted_unique String.le); [done|apply sort_StronglySorted|].
  by rewrite sort_Permutation.
Qed.

End SortFacts.

(** ** Filtering *)

Section FilterFacts.

Context {A : Type} (P : A → Prop) `{∀ x, Decision (P x)}.

Lemma filter_all (l : list A) : Forall P l → filter P l = l.
Proof.
  induction 1 as [|x l HP _ IH]; [done|].
  by rewrite filter_cons_True, IH.
Qed.

Lemma filter_sublist_mono (l k : list A) :
  l `sublist_of` k → filter P l `sublist_of` filter P k.
Proof.
  induction 1 as [|x l k _ IH|x l k _ IH].
  - done.
  - rewrite !filter_cons. case_decide; [by constructor|done].
  - rewrite filter_cons. case_decide; [by constructor|done].
Qed.

Lemma filter_none (l : list A) : (∀ x, x ∈ l → ¬ P x) → filter P l = [].
Proof.
  induction l as [|x l IH]; intros Hno; [done|].
  rewrite filter_cons_False; [|apply Hno; left].
  apply IH. intros y Hy. apply Hno. by right.
Qed.

End FilterFacts.

(** ** First match of [Array.prototype.find] *)

Section FindFacts.

Context {A : Type} (P : A → Prop) `{∀ x, Decision (P x)}.

Lemma find_first (l : list A) m :
  snd <$> list_find P l = Some m ↔
  ∃ i, l !! i = Some m ∧ P m ∧ ∀ j e, l !! j = Some e → j < i → ¬ P e.
Proof.
  split.
  - destruct (list_find P l) as [[i x]|] eqn:Hfind; [|done].
    intros [= <-]. exists i. by apply list_find_Some in Hfind.
  - intros (i & Hfind). apply (list_find_Some P l i m) in Hfind. by rewrite Hfind.
Qed.

Lemma find_none (l : list A) :
  snd <$> list_find P l = None ↔ ∀ e, e ∈ l → ¬ P e.
Proof. by rewrite fmap_None, list_find_None, Forall_forall. Qed.

End FindFacts.

(** ** The queries *)

Section QueryFacts.

Variable DB : list Entry.

Lemma searchText_long query :
  2 ≤ String.length (normalize query) →
  searchText DB query = snd <$> findMatch DB (normalize query).
Proof. intros ?. unfold searchText. case_decide; [lia|done]. Qed.

Lemma searchText_Some query m :
  2 ≤ String.length (normalize query) →
  searchText DB query = Some m ↔
  ∃ i, DB !! i = Some m ∧ substring_of (normalize query) (fullString m) ∧
       ∀ j e, DB !! j = Some e → j < i →
              ¬ substring_of (normalize query) (fullString e).
Proof.
  intros Hlen. rewrite (searchText_long _ Hlen). unfold findMatch.
  rewrite find_first. by setoid_rewrite includes_spec.
Qed.

Lemma searchText_None query :
  2 ≤ String.length (normalize query) →
  searchText DB query = None ↔
  ∀ e, e ∈ DB → ¬ substring_of (normalize query) (fullString e).
Proof.
  intros Hlen. rewrite (searchText_long _ Hlen). unfold findMatch.
  rewrite find_none. by setoid_rewrite includes_spec.
Qed.

(** C6. A query whose normalized form has fewer than two code units is
    answered not-found whatever the catalog holds. *)
Theorem searchText_short_query query :
  String.length (normalize query) < 2 → searchText DB query = None.
Proof. intros ?. unfold searchText. by case_decide. Qed.

Lemma findExact_Some b t c e :
  findExact DB b t c = Some e ↔
  ∃ i, DB !! i = Some e ∧ has_key b t c e ∧
       ∀ j e', DB !! j = Some e' → j < i → ¬ has_key b t c e'.
Proof. apply (find_first (has_key b t c)). Qed.

Lemma findExact_None b t c :
  findExact DB b t c = None ↔ ∀ e, e ∈ DB → ¬ has_key b t c e.
Proof. apply (find_none (has_key b t c)). Qed.

(** C2. [findExact] returns the entry of lowest index whose brand, type
    and code are equal to the arguments, and not-found exactly when no
    entry has the three. *)
Theorem findExact_first_key b t c :
  (∀ e, findExact DB b t c = Some e ↔
     ∃ i, DB !! i = Some e ∧ has_key b t c e ∧
          ∀ j e', DB !! j = Some e' → j < i → ¬ has_key b t c e') ∧
  (findExact DB b t c = None ↔ ∀ e, e ∈ DB → ¬ has_key b t c e).
Proof.
  split.
  - intros e. apply findExact_Some.
  - apply findExact_None.
Qed.

(** C3. [listBrands] lists each brand of the catalog once, and nothing
    else, in strictly ascending code-unit order; the empty catalog has no
    brand. *)
Theorem listBrands_distinct_sorted :
  NoDup (listBrands DB) ∧
  (∀ b, b ∈ listBrands DB ↔ ∃ e, e ∈ DB ∧ brand e = b) ∧
  (∀ i j x y, listBrands DB !! i = Some x → listBrands DB !! j = Some y →
     i < j → String.le x y ∧ x ≠ y) ∧
  listBrands [] = [].
Proof.
  assert (NoDup (listBrands DB)) as Hnodup.
  { unfold listBrands. rewrite sort_Permutation. apply NoDup_Set_of. }
  split_and!.
  - done.
  - intros b. unfold listBrands.
    rewrite sort_Permutation, elem_of_Set_of, list_elem_of_fmap. naive_solver.
  - intros i j x y Hi Hj Hlt. split.
    + eapply StronglySorted_lookup_le; [apply sort_StronglySorted|done..].
    + intros ->. pose proof (NoDup_lookup _ _ _ _ Hnodup Hi Hj). lia.
  - done.
Qed.

(** C4. [listTypes] lists, without repetition, the types of the entries
    of the given brand in the order in which the catalog first shows
    them; it is empty for the empty brand and for a brand of no entry. *)
Theorem listTypes_first_seen b :
  let seen := type <$> filter (λ item, brand item = b) DB in
  NoDup (listTypes DB b) ∧
  (∀ t, t ∈ listTypes DB b ↔ b ≠ "" ∧ ∃ e, e ∈ DB ∧ brand e = b ∧ type e = t) ∧
  (∀ i j t1 t2, listTypes DB b !! i = Some t1 → listTypes DB b !! j = Some t2 →
     i < j → ∃ l1 l2, seen = l1 ++ t1 :: l2 ∧ t2 ∉ l1) ∧
  (b = "" → listTypes DB b = []) ∧
  ((∀ e, e ∈ DB → brand e ≠ b) → listTypes DB b = []).
Proof.
  intros seen. unfold listTypes, availableTypes. fold seen.
  case_decide as Hb.
  - split_and!; [constructor| |done|done|done].
    intros t. rewrite elem_of_nil. naive_solver.
  - split_and!.
    + apply NoDup_Set_of.
    + intros t. rewrite elem_of_Set_of. unfold seen.
      rewrite list_elem_of_fmap. setoid_rewrite list_elem_of_filter.
      naive_solver.
    + intros i j t1 t2. apply Set_of_first_seen.
    + done.
    + intros Hno. unfold seen. by rewrite filter_none.
Qed.

(** C5. For a brand and a type that are not empty, [listCodes] is the
    largest subsequence of the catalog made of entries of that brand and
    type: it keeps their order and every occurrence; it is empty when
    the brand or the type is empty, and when no entry has both. *)
Theorem listCodes_matching_subsequence b t :
  let P := λ item, brand item = b ∧ type item = t in
  (b ≠ "" → t ≠ "" →
     listCodes DB b t = filter P DB ∧
     listCodes DB b t `sublist_of` DB ∧ Forall P (listCodes DB b t) ∧
     ∀ l, l `sublist_of` DB → Forall P l → l `sublist_of` listCodes DB b t) ∧
  (b = "" ∨ t = "" → listCodes DB b t = []) ∧
  ((∀ e, e ∈ DB → ¬ P e) → listCodes DB b t = []).
Proof.
  intros P. unfold listCodes, codes. fold P. split_and!.
  - intros Hb Ht. case_decide as Hempty; [naive_solver|]. split_and!.
    + done.
    + apply sublist_filter.
    + apply Forall_forall. by intros e [? _]%list_elem_of_filter.
    + intros l Hsub Hall. rewrite <-(filter_all P l Hall).
      by apply filter_sublist_mono.
  - intros Hempty. by case_decide.
  - intros Hno. case_decide; [done|]. by apply filter_none.
Qed.

End QueryFacts.

(** The queries on the sample catalog. *)

Example listBrands_sample : listBrands Sample.catalog = ["Acme"; "Zanu"].
Proof. reflexivity. Qed.

Example listTypes_sample_unsorted :
  listTypes Sample.catalog "Acme" = ["Washer"; "Dryer"] ∧
  listTypes Sample.catalog "acme" = [].
Proof. split; reflexivity. Qed.

Example listCodes_sample_twins :
  listCodes [Sample.twin_a; Sample.acme_e01; Sample.twin_b] "Acme" "Washer" =
  [Sample.twin_a; Sample.twin_b].
Proof. reflexivity. Qed.

Example findExact_sample_case :
  findExact Sample.catalog "Acme" "Washer" "F21" = Some Sample.acme_f21 ∧
  findExact Sample.catalog "acme" "Washer" "F21" = None ∧
  findExact [Sample.twin_a; Sample.twin_b] "Acme" "Washer" "F21" = Some Sample.twin_a.
Proof. split_and!; reflexivity. Qed.

Example searchText_sample :
  searchText Sample.catalog "long drain" = Some Sample.acme_f21 ∧
  searchText Sample.catalog "  DRAIN " = Some Sample.zanu_f21 ∧
  searchText Sample.catalog "x" = None ∧
  searchText Sample.catalog "zz" = None.
Proof. split_and!; reflexivity. Qed.

Lemma searchText_short_query_witness :
  String.length (normalize " X ") < 2 ∧ searchText Sample.catalog " X " = None.
Proof.
  split; [vm_compute; lia|].
  apply (searchText_short_query Sample.catalog " X "). vm_compute. lia.
Defined.

(** ** Drop-downs *)

Section DomFacts.

Lemma get_value_set_value sel v :
  (∃ o, o ∈ options sel ∧ value o = v) → get_value (set_value v sel) = v.
Proof.
  intros (o & Ho & Hv). unfold get_value, set_value. simpl.
  destruct (list_find_elem_of (λ o, value o = v) _ o Ho Hv) as [[i o'] Hfind].
  rewrite Hfind. simpl.
  apply list_find_Some in Hfind as (-> & ? & _). done.
Qed.

Lemma get_value_set_value_absent sel v :
  (∀ o, o ∈ options sel → value o ≠ v) → get_value (set_value v sel) = "".
Proof.
  intros Hno. unfold get_value, set_value. simpl.
  assert (list_find (λ o, value o = v) (options sel) = None) as ->; [|done].
  by apply list_find_None, Forall_forall.
Qed.

Lemma options_set_value sel v : options (set_value v sel) = options sel.
Proof. done. Qed.

Lemma add_all {X} (f : X → OptionEl) l sel i :
  selectedIndex sel = Some i →
  foldl (λ sel x, add (f x) sel) sel l =
  mkSelect (options sel ++ (f <$> l)) (Some i) (disabled sel).
Proof.
  revert sel. induction l as [|x l IH]; intros sel Hsel; simpl.
  - destruct sel; simpl in *. by rewrite app_nil_r, Hsel.
  - rewrite IH; simpl; [|by rewrite Hsel].
    by rewrite <-app_assoc.
Qed.

Lemma add_all_options {X} (f : X → OptionEl) l sel :
  options (foldl (λ sel x, add (f x) sel) sel l) = options sel ++ (f <$> l).
Proof.
  revert sel. induction l as [|x l IH]; intros sel; simpl.
  - by rewrite app_nil_r.
  - rewrite IH. simpl. by rewrite <-app_assoc.
Qed.

End DomFacts.

(** ** Handlers *)

Section HandlerFacts.

Lemma foldl_on_brand {X} (f : X → OptionEl) l s :
  foldl (λ s x, on_brand (add (f x)) s) s l =
  on_brand (λ sel, foldl (λ sel x, add (f x) sel) sel l) s.
Proof.
  revert s. induction l as [|x l IH]; intros s; simpl.
  - by destruct s.
  - by rewrite IH.
Qed.

Lemma foldl_on_type {X} (f : X → OptionEl) l s :
  foldl (λ s x, on_type (add (f x)) s) s l =
  on_type (λ sel, foldl (λ sel x, add (f x) sel) sel l) s.
Proof.
  revert s. induction l as [|x l IH]; intros s; simpl.
  - by destruct s.
  - by rewrite IH.
Qed.

Lemma foldl_on_code {X} (f : X → OptionEl) l s :
  foldl (λ s x, on_code (add (f x)) s) s l =
  on_code (λ sel, foldl (λ sel x, add (f x) sel) sel l) s.
Proof.
  revert s. induction l as [|x l IH]; intros s; simpl.
  - by destruct s.
  - by rewrite IH.
Qed.

(** What [populateBrands] leaves in the brand drop-down. *)
Lemma populateBrands_options s :
  options (els_brand (populateBrands s)) =
  options (els_brand s) ++ ((λ b, Option b b) <$> listBrands (DB s)).
Proof.
  unfold populateBrands. rewrite foldl_on_brand. simpl. apply add_all_options.
Qed.

Lemma populateBrands_DB s : DB (populateBrands s) = DB s.
Proof. unfold populateBrands. by rewrite foldl_on_brand. Qed.

(** What [updateCodes()] leaves behind for a brand and a type that are
    selected: the placeholder and one option per entry of [listCodes]. *)
Lemma updateCodes_selected s :
  let b := get_value (els_brand s) in
  let t := get_value (els_type s) in
  b ≠ "" → t ≠ "" →
  updateCodes None s =
  on_code (λ _, mkSelect (Option "Select Code" "" :: (codeOption <$> listCodes (DB s) b t))
                         (Some 0) false)
          (hideSolution s).
Proof.
  intros b t Hb Ht. unfold updateCodes, listCodes. simpl. fold b t.
  case_decide as Hempty; [naive_solver|].
  rewrite foldl_on_code. unfold on_code, hideSolution. simpl.
  by rewrite (add_all _ _ _ 0).
Qed.

Lemma updateCodes_unselected pre s :
  get_value (els_brand s) = "" ∨ get_value (els_type s) = "" →
  updateCodes pre s =
  on_code (λ _, mkSelect [Option "Select Code" ""] (Some 0) true) (hideSolution s).
Proof. intros Hempty. unfold updateCodes. simpl. by case_decide. Qed.

(** What [updateTypes] leaves in the type drop-down: the placeholder and
    one option per type of [listTypes]. *)
Lemma updateTypes_options pre s :
  options (els_type (updateTypes pre s)) =
  Option "Select Type" "" ::
    ((λ t, Option t t) <$> listTypes (DB s) (get_value (els_brand s))).
Proof.
  unfold updateTypes, listTypes. simpl. case_decide as Hb; [done|].
  rewrite foldl_on_type. simpl.
  assert (∀ s', options (els_type (updateCodes None s')) = options (els_type s'))
    as Hcodes.
  { intros s'. unfold updateCodes. simpl. case_decide; [done|].
    by rewrite foldl_on_code. }
  destruct pre as [t|]; [case_decide|]; rewrite ?Hcodes; simpl;
    by rewrite (add_all _ _ _ 0).
Qed.

(** [updateTypes(t)] for a type [t] that the selected brand has: the type
    is selected and the codes of the brand and type are offered. *)
Lemma updateTypes_preselected s t :
  let b := get_value (els_brand s) in
  b ≠ "" → t ≠ "" → t ∈ availableTypes (DB s) b →
  let s' := updateTypes (Some t) s in
  DB s' = DB s ∧ els_brand s' = els_brand s ∧
  get_value (els_type s') = t ∧
  els_code s' =
    mkSelect (Option "Select Code" "" :: (codeOption <$> listCodes (DB s) b t))
             (Some 0) false.
Proof.
  intros b Hb Ht Hin s'. unfold s', updateTypes. simpl. fold b.
  case_decide as Hb'; [done|]. case_decide as Hpre; [|naive_solver].
  rewrite foldl_on_type.
  match goal with |- context [updateCodes None ?s1] => set (s1' := s1) end.
  assert (get_value (els_brand s1') = b) as Hbrand by done.
  assert (get_value (els_type s1') = t) as Htype.
  { unfold s1'. simpl. rewrite (add_all _ _ _ 0) by done.
    apply get_value_set_value. exists (Option t t). split; [|done].
    simpl. right. apply list_elem_of_fmap. by exists t. }
  rewrite updateCodes_selected; rewrite ?Hbrand, ?Htype; [|done..].
  by split_and!.
Qed.

End HandlerFacts.

(** ** The catalog and the brand drop-down along a run *)

Section Invariant.

Lemma keeps_brands_trans s1 s2 s3 :
  keeps_brands s1 s2 → keeps_brands s2 s3 → keeps_brands s1 s3.
Proof. unfold keeps_brands. intros [<- <-] [<- <-]. done. Qed.

Lemma renderSolution_keeps s : keeps_brands s (renderSolution s).
Proof. unfold renderSolution. by destruct (findExact _ _ _ _). Qed.

Lemma updateCodes_keeps pre s : keeps_brands s (updateCodes pre s).
Proof.
  unfold updateCodes. simpl. case_decide; [done|].
  rewrite foldl_on_code.
  destruct pre as [c|]; [case_decide|]; try done.
  eapply keeps_brands_trans; [|apply renderSolution_keeps]. done.
Qed.

Lemma updateTypes_keeps pre s : keeps_brands s (updateTypes pre s).
Proof.
  unfold updateTypes. simpl. case_decide; [done|].
  rewrite foldl_on_type.
  destruct pre as [t|]; [case_decide|]; try done.
  eapply keeps_brands_trans; [|apply updateCodes_keeps]. done.
Qed.

Lemma handleSearch_keeps query s : keeps_brands s (handleSearch query s).1.
Proof.
  unfold handleSearch. case_decide; [done|].
  destruct (findMatch _ _) as [[i m]|]; [|done]. simpl.
  eapply keeps_brands_trans; [|apply updateTypes_keeps]. done.
Qed.

Lemma keeps_brands_populated s s' :
  keeps_brands s s' → brands_populated s → brands_populated s'.
Proof. unfold brands_populated. by intros [-> ->]. Qed.

(** Loading offers every brand of the new catalog. *)
Lemma load_brands_populated data s : brands_populated (load data s).
Proof.
  intros e He. unfold load in *. rewrite populateBrands_DB in He. simpl in He.
  exists (Option (brand e) (brand e)). split; [|done].
  rewrite populateBrands_options. apply elem_of_app. right.
  apply list_elem_of_fmap. exists (brand e). split; [done|]. simpl.
  unfold listBrands. rewrite sort_Permutation, elem_of_Set_of.
  by apply list_elem_of_fmap_2.
Qed.

Lemma step_brands_populated s s' :
  step s s' → brands_populated s → brands_populated s'.
Proof.
  destruct 1 as [data s|i s _|i s _ _|i s _ _|query s|c s|s]; intros Hpop.
  - apply load_brands_populated.
  - eapply keeps_brands_populated; [apply updateTypes_keeps|]. done.
  - eapply keeps_brands_populated; [apply updateCodes_keeps|]. done.
  - eapply keeps_brands_populated; [apply renderSolution_keeps|]. done.
  - eapply keeps_brands_populated; [apply handleSearch_keeps|]. done.
  - eapply keeps_brands_populated; [apply renderSolution_keeps|]. done.
  - eapply keeps_brands_populated; [apply renderSolution_keeps|]. done.
Qed.

(** Every state of a run offers the brands of its catalog. *)
Lemma reachable_brands_populated s : reachable s → brands_populated s.
Proof.
  intros (s0 & Hempty & Hrun).
  assert (brands_populated s0) as Hpop.
  { intros e He. rewrite Hempty in He. by apply elem_of_nil in He. }
  clear Hempty. induction Hrun as [|s0 s1 s2 Hstep _ IH]; [done|].
  apply IH. by eapply step_brands_populated.
Qed.

End Invariant.

(** ** Searching from the page *)

Section SearchFacts.

Lemma handleSearch_found s query m :
  searchText (DB s) query = Some m →
  handleSearch query s =
  (updateTypes (Some (type m)) (on_brand (set_value (brand m)) s), Some (code m)).
Proof.
  unfold searchText, handleSearch. case_decide; [done|].
  destruct (findMatch _ _) as [[i m']|]; [|done]. by intros [= ->].
Qed.

Lemma handleSearch_not_found s query :
  searchText (DB s) query = None → handleSearch query s = (s, None).
Proof.
  unfold searchText, handleSearch. case_decide; [done|].
  by destruct (findMatch _ _) as [[i m']|].
Qed.

Lemma searchText_elem_of DB query m : searchText DB query = Some m → m ∈ DB.
Proof.
  unfold searchText. case_decide; [done|]. unfold findMatch.
  intros (i & Hi & _)%find_first. by eapply list_elem_of_lookup_2.
Qed.

Lemma search_renders_populated s query m :
  brands_populated s →
  searchText (DB s) query = Some m →
  brand m ≠ "" → type m ≠ "" →
  let s' := searchAndRender query s in
  ∃ e, findExact (DB s) (brand m) (type m) (code m) = Some e ∧
       displays e s' ∧
       get_value (els_brand s') = brand m ∧
       get_value (els_type s') = type m ∧
       get_value (els_code s') = code m.
Proof.
  intros Hpop Hsearch Hbrand Htype s'.
  pose proof (searchText_elem_of _ _ _ Hsearch) as Hm.
  unfold s', searchAndRender. rewrite (handleSearch_found _ _ _ Hsearch).
  set (s0 := on_brand (set_value (brand m)) s).
  assert (get_value (els_brand s0) = brand m) as Hb0.
  { apply get_value_set_value. by apply Hpop. }
  destruct (updateTypes_preselected s0 (type m)) as (HDB & Hb1 & Ht1 & Hc1).
  { by rewrite Hb0. }
  { done. }
  { rewrite Hb0. apply elem_of_Set_of, list_elem_of_fmap.
    exists m. split; [done|]. by apply list_elem_of_filter. }
  set (s1 := updateTypes (Some (type m)) s0) in *.
  rewrite Hb0 in Hc1. change (DB s0) with (DB s) in *.
  assert (get_value (set_value (code m) (els_code s1)) = code m) as Hc2.
  { apply get_value_set_value. exists (codeOption m). split; [|done].
    rewrite Hc1. simpl. right. apply list_elem_of_fmap_2.
    unfold listCodes, codes. case_decide; [naive_solver|].
    by apply list_elem_of_filter. }
  unfold searchTimeout, renderSolution. simpl.
  rewrite Hb1, Hb0, Ht1, Hc2, HDB.
  destruct (findExact (DB s) (brand m) (type m) (code m)) as [e|] eqn:Hfind.
  - exists e. split_and!; try done. simpl. by rewrite Hb1.
  - rewrite findExact_None in Hfind. by destruct (Hfind m Hm).
Qed.

(** C8, as the handlers have it. On a page in any state it can reach, a
    search that finds an entry [m] of non-empty brand and type, followed
    by its timer with no other handler run in between, ends with the card
    showing the entry that [findExact] returns for the brand, type and
    code of [m], the first of the catalog with that key, and with the
    three drop-downs on that key; this entry is [m] when the keys of the
    catalog are unique. *)
Theorem search_renders_first_key s query m :
  reachable s →
  searchText (DB s) query = Some m →
  brand m ≠ "" → type m ≠ "" →
  let s' := searchAndRender query s in
  ∃ e, findExact (DB s) (brand m) (type m) (code m) = Some e ∧
       (∃ i, DB s !! i = Some e ∧ has_key (brand m) (type m) (code m) e ∧
             ∀ j e', DB s !! j = Some e' → j < i →
                     ¬ has_key (brand m) (type m) (code m) e') ∧
       displays e s' ∧
       get_value (els_brand s') = brand m ∧
       get_value (els_type s') = type m ∧
       get_value (els_code s') = code m ∧
       (unique_keys (DB s) → e = m).
Proof.
  intros Hreach Hsearch Hbrand Htype s'.
  destruct (search_renders_populated s query m) as (e & Hfind & Hshown & Hsel);
    [by apply reachable_brands_populated|done..|].
  exists e. pose proof Hfind as (i & Hi & Hkey & Hleast)%findExact_Some.
  split_and!; [done|by exists i|done|apply Hsel..|].
  intros Huniq.
  apply searchText_elem_of, list_elem_of_lookup_1 in Hsearch as [j Hj].
  rewrite (Huniq j i m e Hj Hi Hkey), Hi in Hj. by injection Hj.
Qed.

(** C9. A search that finds nothing, the normalized query being too
    short or contained in no entry, returns with the page as it was and
    schedules no timer: selections and card are untouched. *)
Theorem handleSearch_not_found_unchanged s query :
  searchText (DB s) query = None →
  (String.length (normalize query) < 2 ∨
   ∀ e, e ∈ DB s → ¬ substring_of (normalize query) (fullString e)) ∧
  handleSearch query s = (s, None) ∧
  searchAndRender query s = s.
Proof.
  intros Hnone. split_and!.
  - destruct (decide (String.length (normalize query) < 2)) as [|Hlong];
      [by left|right].
    apply searchText_None; [lia|done].
  - by apply handleSearch_not_found.
  - unfold searchAndRender. by rewrite handleSearch_not_found.
Qed.

(** C10. In a catalog without empty brand, type or code, no entry has a
    key with an empty component: [renderSolution] called while a
    drop-down is on its placeholder finds nothing and hides the card,
    whatever the card showed before. *)
Theorem renderSolution_placeholder_hides s :
  (∀ e, e ∈ DB s → brand e ≠ "" ∧ type e ≠ "" ∧ code e ≠ "") →
  get_value (els_brand s) = "" ∨ get_value (els_type s) = "" ∨
    get_value (els_code s) = "" →
  findExact (DB s) (get_value (els_brand s)) (get_value (els_type s))
            (get_value (els_code s)) = None ∧
  renderSolution s = hideSolution s ∧
  card_hidden (renderSolution s) = true ∧
  ∀ e, ¬ displays e (renderSolution s).
Proof.
  intros Hfull Hempty.
  assert (findExact (DB s) (get_value (els_brand s)) (get_value (els_type s))
            (get_value (els_code s)) = None) as Hfind.
  { apply findExact_None. intros e He (Hb & Ht & Hc).
    destruct (Hfull e He) as (? & ? & ?). naive_solver congruence. }
  unfold renderSolution. rewrite Hfind. split_and!; [done..|].
  intros e [Hshown _]. done.
Qed.

End SearchFacts.

(** Searches on the sample pages. *)

Lemma sample_catalog_full :
  ∀ e, e ∈ DB Sample.page → brand e ≠ "" ∧ type e ≠ "" ∧ code e ≠ "".
Proof.
  apply Forall_forall. change (DB Sample.page) with Sample.catalog.
  repeat constructor; done.
Qed.

Lemma sample_page_reachable : reachable Sample.page.
Proof. exists Sample.blank_page. split; [done|]. apply rtc_once, step_load. Qed.

Lemma search_renders_first_key_witness :
  reachable Sample.page ∧
  searchText (DB Sample.page) "drain" = Some Sample.zanu_f21 ∧
  brand Sample.zanu_f21 ≠ "" ∧ type Sample.zanu_f21 ≠ "" ∧
  ∃ e, findExact (DB Sample.page) "Zanu" "Washer" "F21" = Some e ∧
       (∃ i, DB Sample.page !! i = Some e ∧ has_key "Zanu" "Washer" "F21" e ∧
             ∀ j e', DB Sample.page !! j = Some e' → j < i →
                     ¬ has_key "Zanu" "Washer" "F21" e') ∧
       displays e (searchAndRender "drain" Sample.page) ∧
       get_value (els_brand (searchAndRender "drain" Sample.page)) = "Zanu" ∧
       get_value (els_type (searchAndRender "drain" Sample.page)) = "Washer" ∧
       get_value (els_code (searchAndRender "drain" Sample.page)) = "F21" ∧
       (unique_keys (DB Sample.page) → e = Sample.zanu_f21).
Proof.
  split_and!; [apply sample_page_reachable|reflexivity|done|done|].
  apply (search_renders_first_key Sample.page "drain" Sample.zanu_f21).
  - apply sample_page_reachable.
  - reflexivity.
  - done.
  - done.
Defined.

Lemma handleSearch_not_found_unchanged_witness :
  searchText (DB Sample.page) "zz" = None ∧
  (String.length (normalize "zz") < 2 ∨
   ∀ e, e ∈ DB Sample.page → ¬ substring_of (normalize "zz") (fullString e)) ∧
  handleSearch "zz" Sample.page = (Sample.page, None) ∧
  searchAndRender "zz" Sample.page = Sample.page.
Proof.
  split; [reflexivity|].
  apply (handleSearch_not_found_unchanged Sample.page "zz"). reflexivity.
Defined.

Lemma renderSolution_placeholder_hides_witness :
  get_value (els_code Sample.page) = "" ∧
  findExact (DB Sample.page) (get_value (els_brand Sample.page))
            (get_value (els_type Sample.page)) (get_value (els_code Sample.page)) = None ∧
  renderSolution Sample.page = hideSolution Sample.page ∧
  card_hidden (renderSolution Sample.page) = true ∧
  ∀ e, ¬ displays e (renderSolution Sample.page).
Proof.
  split; [reflexivity|].
  apply (renderSolution_placeholder_hides Sample.page).
  - apply sample_catalog_full.
  - right. right. reflexivity.
Defined.

(** With two entries under one key the card shows the first, also when the
    search found the second. *)
Example search_twins_first_shown :
  searchText (DB Sample.page_twins) "outlet" = Some Sample.twin_b ∧
  displays Sample.twin_a (searchAndRender "outlet" Sample.page_twins) ∧
  Sample.twin_a ≠ Sample.twin_b.
Proof. split_and!; [reflexivity|by repeat split|done]. Qed.

(** C8, as stated, fails on a catalog whose only entry has no brand, and
    on one whose only entry has no type: the search finds the entry, whose
    key [findExact] would find again, and the page ends with the card
    hidden. It also fails on the sample catalog when the user changes the
    brand between the search and its timer: the timer then finds no option
    for the code and the card stays hidden. *)
Lemma search_blank_key_not_rendered :
  (reachable Sample.page_no_brand ∧
   unique_keys (DB Sample.page_no_brand) ∧
   searchText (DB Sample.page_no_brand) "f21" = Some Sample.no_brand ∧
   findExact (DB Sample.page_no_brand) "" "Washer" "F21" = Some Sample.no_brand ∧
   card_hidden (searchAndRender "f21" Sample.page_no_brand) = true ∧
   ¬ renders_found_key Sample.page_no_brand "f21") ∧
  (reachable Sample.page_no_type ∧
   unique_keys (DB Sample.page_no_type) ∧
   searchText (DB Sample.page_no_type) "f21" = Some Sample.no_type ∧
   findExact (DB Sample.page_no_type) "Acme" "" "F21" = Some Sample.no_type ∧
   card_hidden (searchAndRender "f21" Sample.page_no_type) = true ∧
   ¬ renders_found_key Sample.page_no_type "f21") ∧
  (reachable Sample.page ∧
   searchText (DB Sample.page) "drain" = Some Sample.zanu_f21 ∧
   findExact (DB Sample.page) "Zanu" "Washer" "F21" = Some Sample.zanu_f21 ∧
   (handleSearch "drain" Sample.page).2 = Some "F21" ∧
   interact (handleSearch "drain" Sample.page).1
            (brandChanged 1 (handleSearch "drain" Sample.page).1) ∧
   card_hidden
     (searchTimeout "F21" (brandChanged 1 (handleSearch "drain" Sample.page).1)) = true ∧
   ∀ e, ¬ displays e
     (searchTimeout "F21" (brandChanged 1 (handleSearch "drain" Sample.page).1))).
Proof.
  split; [|split]; split_and!; try reflexivity.
  - exists Sample.blank_page. split; [done|]. apply rtc_once, step_load.
  - change (DB Sample.page_no_brand) with [Sample.no_brand].
    intros i j e1 e2 [-> _]%list_lookup_singleton_Some
      [-> _]%list_lookup_singleton_Some _. done.
  - intros Hclaim. destruct (Hclaim Sample.no_brand) as (e & _ & Hshown & _).
    + reflexivity.
    + vm_compute in Hshown. done.
  - exists Sample.blank_page. split; [done|]. apply rtc_once, step_load.
  - change (DB Sample.page_no_type) with [Sample.no_type].
    intros i j e1 e2 [-> _]%list_lookup_singleton_Some
      [-> _]%list_lookup_singleton_Some _. done.
  - intros Hclaim. destruct (Hclaim Sample.no_type) as (e & _ & Hshown & _).
    + reflexivity.
    + vm_compute in Hshown. done.
  - exists Sample.blank_page. split; [done|]. apply rtc_once, step_load.
  - apply interact_brand. vm_compute. lia.
  - intros e [Hshown _]. vm_compute in Hshown. done.
Qed.

(** * Further properties of the handlers *)

(** ** What the handlers leave alone *)

Section Frames.

Lemma renderSolution_frame s :
  DB (renderSolution s) = DB s ∧ els_brand (renderSolution s) = els_brand s ∧
  els_type (renderSolution s) = els_type s ∧ els_code (renderSolution s) = els_code s.
Proof. unfold renderSolution. by destruct (findExact _ _ _ _). Qed.

Lemma renderSolution_lookup s :
  renderSolution s =
  match findExact (DB s) (get_value (els_brand s)) (get_value (els_type s))
                  (get_value (els_code s)) with
  | None => hideSolution s
  | Some e => showEntry e s
  end.
Proof. done. Qed.

Lemma renderSolution_current s : card_current (renderSolution s).
Proof.
  unfold card_current. destruct (renderSolution_frame s) as (-> & -> & -> & ->).
  unfold renderSolution.
  destruct (findExact _ _ _ _) as [e|]; [|done].
  intros _. exists e. by repeat split.
Qed.

Lemma updateCodes_frame pre s :
  DB (updateCodes pre s) = DB s ∧ els_brand (updateCodes pre s) = els_brand s ∧
  els_type (updateCodes pre s) = els_type s.
Proof.
  unfold updateCodes. simpl. case_decide; [done|]. rewrite foldl_on_code.
  destruct pre as [c|]; [case_decide|]; try done.
  match goal with |- context [renderSolution ?s1] =>
    destruct (renderSolution_frame s1) as (-> & -> & -> & _) end.
  done.
Qed.

Lemma updateCodes_options pre s :
  options (els_code (updateCodes pre s)) =
  Option "Select Code" "" ::
    (codeOption <$> listCodes (DB s) (get_value (els_brand s)) (get_value (els_type s))).
Proof.
  unfold updateCodes, listCodes. simpl. case_decide; [done|]. rewrite foldl_on_code.
  destruct pre as [c|]; [case_decide|]; simpl;
    rewrite ?(proj2 (proj2 (proj2 (renderSolution_frame _)))); simpl;
    by rewrite (add_all _ _ _ 0).
Qed.

Lemma updateCodes_disabled pre s :
  disabled (els_code (updateCodes pre s)) =
  bool_decide (get_value (els_brand s) = "" ∨ get_value (els_type s) = "").
Proof.
  unfold updateCodes. simpl. case_bool_decide; case_decide; try done.
  rewrite foldl_on_code.
  destruct pre as [c|]; [case_decide|]; simpl;
    rewrite ?(proj2 (proj2 (proj2 (renderSolution_frame _)))); done.
Qed.

Lemma updateCodes_quiet pre s :
  pre = None ∨ pre = Some "" ∨
    get_value (els_brand s) = "" ∨ get_value (els_type s) = "" →
  card_hidden (updateCodes pre s) = true ∧
  get_value (els_code (updateCodes pre s)) = "".
Proof.
  intros Hquiet. unfold updateCodes. simpl. case_decide as Hsel; [done|].
  rewrite foldl_on_code.
  assert (pre = None ∨ pre = Some "") as [-> | ->] by naive_solver.
  - simpl. by rewrite (add_all _ _ _ 0).
  - case_decide; [|done]. simpl. by rewrite (add_all _ _ _ 0).
Qed.

Lemma updateTypes_frame pre s :
  DB (updateTypes pre s) = DB s ∧ els_brand (updateTypes pre s) = els_brand s.
Proof.
  unfold updateTypes. simpl. case_decide; [done|]. rewrite foldl_on_type.
  destruct pre as [t|]; [case_decide|]; try done.
  match goal with |- context [updateCodes None ?s1] =>
    destruct (updateCodes_frame None s1) as (-> & -> & _) end.
  done.
Qed.

Lemma updateTypes_quiet pre s :
  card_hidden (updateTypes pre s) = true ∧
  get_value (els_code (updateTypes pre s)) = "".
Proof.
  unfold updateTypes. simpl. case_decide; [done|]. rewrite foldl_on_type.
  destruct pre as [t|]; [case_decide|]; try done.
  apply updateCodes_quiet. by left.
Qed.

End Frames.

(** ** The loader and the three drop-down handlers *)

Section DropDowns.

(** X1. The arrival of the catalog replaces [DB] and appends to the brand
    drop-down one option per brand, in the order of [listBrands], after the
    options already there; the other drop-downs and the card are not
    touched. Nothing is cleared first: a second arrival of the same catalog
    lists every brand twice. *)
Theorem load_appends_brands data s :
  let brands := (λ b, Option b b) <$> listBrands data in
  DB (load data s) = data ∧
  options (els_brand (load data s)) = options (els_brand s) ++ brands ∧
  els_type (load data s) = els_type s ∧
  els_code (load data s) = els_code s ∧
  card_hidden (load data s) = card_hidden s ∧
  options (els_brand (load data (load data s))) =
    options (els_brand s) ++ brands ++ brands.
Proof.
  intros brands.
  assert (∀ s', options (els_brand (load data s')) = options (els_brand s') ++ brands)
    as Hopts.
  { intros s'. unfold load. by rewrite populateBrands_options. }
  split_and!.
  - unfold load. by rewrite populateBrands_DB.
  - apply Hopts.
  - unfold load, populateBrands. by rewrite foldl_on_brand.
  - unfold load, populateBrands. by rewrite foldl_on_brand.
  - unfold load, populateBrands. by rewrite foldl_on_brand.
  - by rewrite !Hopts, <-app_assoc.
Qed.

(** X2. Whatever its argument, [updateTypes] leaves the catalog and the
    brand drop-down alone, offers in the type drop-down the placeholder
    followed by the types of [listTypes] for the selected brand, enables
    that drop-down exactly when a brand is selected, hides the card and
    leaves the code drop-down without a chosen code. *)
Theorem updateTypes_resets pre s :
  let b := get_value (els_brand s) in
  let s' := updateTypes pre s in
  DB s' = DB s ∧ els_brand s' = els_brand s ∧
  options (els_type s') =
    Option "Select Type" "" :: ((λ t, Option t t) <$> listTypes (DB s) b) ∧
  disabled (els_type s') = bool_decide (b = "") ∧
  card_hidden s' = true ∧
  get_value (els_code s') = "".
Proof.
  intros b s'. unfold s'.
  destruct (updateTypes_frame pre s) as [-> ->].
  destruct (updateTypes_quiet pre s) as [-> ->].
  split_and!; try done.
  - apply updateTypes_options.
  - unfold updateTypes. simpl. fold b.
    case_bool_decide; case_decide; try done.
    rewrite foldl_on_type.
    destruct pre as [t|]; [case_decide|]; try done.
    by rewrite (proj2 (proj2 (updateCodes_frame None _))).
Qed.

(** X3. [updateTypes(t)] for a non-empty type [t] that the selected brand
    has selects [t] and fills the enabled code drop-down with the codes of
    the brand and [t]; in every other case (no brand selected, no
    argument, an empty or unknown type) the type drop-down stays on its
    placeholder and the code drop-down is disabled with the single
    option "--". *)
Theorem updateTypes_preselection pre s :
  let b := get_value (els_brand s) in
  let s' := updateTypes pre s in
  (∀ t, pre = Some t → b ≠ "" → t ≠ "" → t ∈ listTypes (DB s) b →
     get_value (els_type s') = t ∧
     els_code s' =
       mkSelect (Option "Select Code" "" :: (codeOption <$> listCodes (DB s) b t))
                (Some 0) false) ∧
  (b = "" ∨ pre = None ∨ (∃ t, pre = Some t ∧ (t = "" ∨ t ∉ listTypes (DB s) b)) →
     get_value (els_type s') = "" ∧
     els_code s' = mkSelect [Option "--" ""] (Some 0) true).
Proof.
  intros b s'. split.
  - intros t -> Hb Ht Hin. unfold listTypes in Hin. case_decide; [done|].
    destruct (updateTypes_preselected s t Hb Ht Hin) as (_ & _ & Htype & Hcode).
    done.
  - intros Hno. unfold s', updateTypes, listTypes in *. simpl. fold b in Hno |- *.
    case_decide as Hb; [done|]. rewrite foldl_on_type.
    assert (pre = None ∨ ∃ t, pre = Some t ∧ ¬ (t ≠ "" ∧ t ∈ availableTypes (DB s) b))
      as [-> |(t & -> & Hinvalid)] by naive_solver.
    + simpl. by rewrite (add_all _ _ _ 0).
    + case_decide; [done|]. simpl. by rewrite (add_all _ _ _ 0).
Qed.

(** X4. Whatever its argument, [updateCodes] leaves the catalog and the
    other two drop-downs alone, offers the placeholder followed by one
    option per entry of [listCodes] for the selected brand and type
    (repeated codes included), and enables the code drop-down exactly when
    both a brand and a type are selected; called without a code, or with
    brand or type unselected, it hides the card and leaves no code
    chosen. *)
Theorem updateCodes_offers pre s :
  let b := get_value (els_brand s) in
  let t := get_value (els_type s) in
  let s' := updateCodes pre s in
  DB s' = DB s ∧ els_brand s' = els_brand s ∧ els_type s' = els_type s ∧
  options (els_code s') =
    Option "Select Code" "" :: (codeOption <$> listCodes (DB s) b t) ∧
  disabled (els_code s') = bool_decide (b = "" ∨ t = "") ∧
  (pre = None ∨ pre = Some "" ∨ b = "" ∨ t = "" →
     card_hidden s' = true ∧ get_value (els_code s') = "").
Proof.
  intros b t s'. unfold s'.
  destruct (updateCodes_frame pre s) as (-> & -> & ->).
  split_and!; try done.
  - apply updateCodes_options.
  - apply updateCodes_disabled.
  - apply updateCodes_quiet.
Qed.

(** X5. [updateCodes(c)] with a brand and a type selected and a non-empty
    code [c]. When [c] is among the codes offered, the first option that
    carries [c] is selected and the code drop-down reads [c]; otherwise no
    option is selected, the placeholder included, and the drop-down reads
    the empty string. The card shows what [findExact] returns for the
    selected brand and type and the value read, or is hidden when it
    returns nothing. *)
Theorem updateCodes_preselection c s :
  let b := get_value (els_brand s) in
  let t := get_value (els_type s) in
  let s' := updateCodes (Some c) s in
  b ≠ "" → t ≠ "" → c ≠ "" →
  get_value (els_code s') =
    (if decide (c ∈ code <$> listCodes (DB s) b t) then c else "") ∧
  match selectedIndex (els_code s') with
  | Some k =>
      ∃ i e, k = S i ∧ listCodes (DB s) b t !! i = Some e ∧ code e = c ∧
             ∀ j e', listCodes (DB s) b t !! j = Some e' → j < i → code e' ≠ c
  | None => c ∉ code <$> listCodes (DB s) b t
  end ∧
  match findExact (DB s) b t (get_value (els_code s')) with
  | Some e => displays e s'
  | None => card_hidden s' = true
  end.
Proof.
  intros b t s' Hb Ht Hc.
  assert (∃ s1, s' = renderSolution (on_code (set_value c) s1) ∧
                DB s1 = DB s ∧ els_brand s1 = els_brand s ∧ els_type s1 = els_type s ∧
                options (els_code s1) =
                  Option "Select Code" "" :: (codeOption <$> listCodes (DB s) b t))
    as (s1 & -> & HDB & Hbrand & Htype & Hopts).
  { unfold s', updateCodes, listCodes. simpl. fold b t.
    case_decide as Hsel; [naive_solver|]. rewrite foldl_on_code.
    case_decide; [done|]. eexists. split; [done|]. simpl.
    by rewrite (add_all _ _ _ 0). }
  destruct (renderSolution_frame (on_code (set_value c) s1)) as (_ & _ & _ & ->).
  simpl.
  assert (get_value (set_value c (els_code s1)) =
          (if decide (c ∈ code <$> listCodes (DB s) b t) then c else "")) as Hval.
  { case_decide as Hin.
    - apply get_value_set_value.
      apply list_elem_of_fmap in Hin as (e & -> & He).
      exists (codeOption e). split; [|done].
      rewrite Hopts. right. by apply list_elem_of_fmap_2.
    - apply get_value_set_value_absent. intros o. rewrite Hopts.
      intros [-> |(e & -> & He)%list_elem_of_fmap]%elem_of_cons; simpl.
      + done.
      + intros <-. apply Hin. by apply list_elem_of_fmap_2. }
  split_and!; [done| |].
  - unfold set_value. simpl. rewrite Hopts.
    destruct (list_find _ _) as [[k o]|] eqn:Hfind; simpl.
    + apply list_find_Some in Hfind as (Hk & Hvalue & Hleast).
      destruct k as [|i]; simpl in Hk; [by injection Hk as <-|].
      apply list_lookup_fmap_Some in Hk as (e & -> & He).
      exists i, e. split_and!; [done..|].
      intros j e' Hj Hlt Hcode. apply (Hleast (S j) (codeOption e')); [|lia|done].
      simpl. by rewrite list_lookup_fmap, Hj.
    + apply list_find_None in Hfind. rewrite Forall_forall in Hfind.
      intros (e & -> & He)%list_elem_of_fmap.
      apply (Hfind (codeOption e)); [|done]. right. by apply list_elem_of_fmap_2.
  - rewrite Hval. unfold renderSolution. simpl.
    rewrite HDB, Hbrand, Htype, Hval. fold b t.
    destruct (findExact (DB s) b t _) as [e|]; [by repeat split|done].
Qed.

(** X6. [renderSolution] touches the card only: catalog and drop-downs
    are as before; running it again, or after [hideSolution], gives the
    same page; and the card it leaves visible shows the entry found for the
    key read from the drop-downs. *)
Theorem renderSolution_idempotent s :
  DB (renderSolution s) = DB s ∧
  els_brand (renderSolution s) = els_brand s ∧
  els_type (renderSolution s) = els_type s ∧
  els_code (renderSolution s) = els_code s ∧
  renderSolution (renderSolution s) = renderSolution s ∧
  renderSolution (hideSolution s) = renderSolution s ∧
  card_current (renderSolution s).
Proof.
  destruct (renderSolution_frame s) as (HDB & Hb & Ht & Hc).
  split_and!; try done.
  - rewrite (renderSolution_lookup (renderSolution s)), HDB, Hb, Ht, Hc.
    unfold renderSolution. by destruct (findExact _ _ _ _).
  - apply renderSolution_current.
Qed.

End DropDowns.

Lemma updateCodes_preselection_witness :
  get_value (els_brand Sample.page_acme_washer) ≠ "" ∧
  get_value (els_type Sample.page_acme_washer) ≠ "" ∧
  "F05" ≠ "" ∧
  get_value (els_code (updateCodes (Some "F05") Sample.page_acme_washer)) = "F05" ∧
  displays Sample.acme_f05 (updateCodes (Some "F05") Sample.page_acme_washer).
Proof.
  pose proof (updateCodes_preselection "F05" Sample.page_acme_washer) as Hpre.
  cbv zeta in Hpre.
  destruct Hpre as (Hval & _ & Hshown); [vm_compute; discriminate..|].
  split_and!; [vm_compute; discriminate..| |].
  - vm_compute in Hval |- *. exact Hval.
  - vm_compute in Hshown |- *. exact Hshown.
Defined.

(** A code that is not offered leaves no option selected. *)
Example updateCodes_unknown_code :
  selectedIndex (els_code (updateCodes (Some "E99") Sample.page_acme_washer)) = None ∧
  get_value (els_code (updateCodes (Some "E99") Sample.page_acme_washer)) = "" ∧
  card_hidden (updateCodes (Some "E99") Sample.page_acme_washer) = true.
Proof. by vm_compute. Qed.

(** ** The card along the life of the page *)

Section CardInvariant.

Lemma hidden_current s : card_hidden s = true → card_current s.
Proof. unfold card_current. by intros ->. Qed.

Lemma interact_current s s' : interact s s' → card_current s → card_current s'.
Proof.
  destruct 1 as [i s _|j s _ _|k s _ _|query s|c s|s]; intros Hcur.
  - apply hidden_current, updateTypes_quiet.
  - apply hidden_current, updateCodes_quiet. by left.
  - apply renderSolution_current.
  - unfold handleSearch. case_decide; [done|].
    destruct (findMatch _ _) as [[i m]|]; [|done].
    apply hidden_current, updateTypes_quiet.
  - apply renderSolution_current.
  - apply renderSolution_current.
Qed.

Lemma interact_empty s s' :
  interact s s' → DB s = [] → card_hidden s = true →
  DB s' = [] ∧ card_hidden s' = true.
Proof.
  destruct 1 as [i s _|j s _ _|k s _ _|query s|c s|s]; intros Hempty Hhidden.
  - unfold brandChanged. destruct (updateTypes_frame None (on_brand (pick i) s)) as [-> _].
    split; [done|]. apply updateTypes_quiet.
  - unfold typeChanged. destruct (updateCodes_frame None (on_type (pick j) s)) as [-> _].
    split; [done|]. apply updateCodes_quiet. by left.
  - unfold codeChanged, renderSolution. simpl. by rewrite Hempty.
  - unfold handleSearch. case_decide; [done|]. unfold findMatch. by rewrite Hempty.
  - unfold searchTimeout, renderSolution. simpl. by rewrite Hempty.
  - unfold renderSolution. by rewrite Hempty.
Qed.

(** X7. No handler that runs on a loaded page leaves a stale card: if
    every visible card showed the entry found for the key read from the
    three drop-downs, this is still so after any sequence of drop-down
    changes, searches, search timers and calls of [window.showSolution]. *)
Theorem card_stays_current s s' :
  rtc interact s s' → card_current s → card_current s'.
Proof.
  induction 1 as [|s1 s2 s3 Hstep _ IH]; [done|].
  intros Hcur. apply IH. by eapply interact_current.
Qed.

(** X8. A page that starts with an empty catalog and a hidden card keeps
    the card hidden until the catalog arrives, whatever the user does; the
    arrival does not show it; and from then on a visible card always shows
    the entry found for the key read from the drop-downs. *)
Theorem page_never_stale s0 s1 data s2 :
  DB s0 = [] → card_hidden s0 = true →
  rtc interact s0 s1 → rtc interact (load data s1) s2 →
  card_hidden s1 = true ∧ card_hidden (load data s1) = true ∧ card_current s2.
Proof.
  intros Hempty Hhidden Hbefore Hafter.
  assert (DB s1 = [] ∧ card_hidden s1 = true) as [_ Hhidden1].
  { clear Hafter. induction Hbefore as [|s0 s s1 Hstep _ IH]; [done|].
    destruct (interact_empty _ _ Hstep Hempty Hhidden). by apply IH. }
  assert (card_hidden (load data s1) = true) as Hloaded.
  { unfold load, populateBrands. by rewrite foldl_on_brand. }
  split_and!; [done..|].
  apply hidden_current in Hloaded. clear Hbefore Hhidden1.
  induction Hafter as [|s s' s2 Hstep _ IH]; [done|].
  apply IH. by eapply interact_current.
Qed.

End CardInvariant.

(** ** Choosing through the drop-downs, and the search handler *)

Section Cascade.

Lemma get_value_pick sel i o :
  options sel !! i = Some o → get_value (pick i sel) = value o.
Proof. intros Hi. unfold get_value, pick. simpl. by rewrite Hi. Qed.

Lemma updateTypes_disabled pre s :
  disabled (els_type (updateTypes pre s)) =
  bool_decide (get_value (els_brand s) = "").
Proof.
  unfold updateTypes. simpl. case_bool_decide; case_decide; try done.
  rewrite foldl_on_type.
  destruct pre as [t|]; [case_decide|]; try done.
  by rewrite (proj2 (proj2 (updateCodes_frame None _))).
Qed.

(** What each listener of a drop-down leaves behind. *)
Lemma brandChanged_post s i ob :
  options (els_brand s) !! i = Some ob → value ob ≠ "" →
  DB (brandChanged i s) = DB s ∧
  get_value (els_brand (brandChanged i s)) = value ob ∧
  options (els_type (brandChanged i s)) =
    Option "Select Type" "" :: ((λ t, Option t t) <$> listTypes (DB s) (value ob)) ∧
  disabled (els_type (brandChanged i s)) = false.
Proof.
  intros Hi Hb. unfold brandChanged.
  destruct (updateTypes_frame None (on_brand (pick i) s)) as [HDB Hbrand].
  pose proof (updateTypes_options None (on_brand (pick i) s)) as Hopts.
  pose proof (updateTypes_disabled None (on_brand (pick i) s)) as Hdis.
  change (DB (on_brand (pick i) s)) with (DB s) in *.
  change (els_brand (on_brand (pick i) s)) with (pick i (els_brand s)) in *.
  rewrite (get_value_pick _ _ _ Hi) in Hopts, Hdis.
  rewrite bool_decide_eq_false_2 in Hdis by done.
  split_and!; [done| |done|done].
  rewrite Hbrand. by apply get_value_pick.
Qed.

Lemma typeChanged_post s j o :
  options (els_type s) !! j = Some o → get_value (els_brand s) ≠ "" → value o ≠ "" →
  DB (typeChanged j s) = DB s ∧
  get_value (els_brand (typeChanged j s)) = get_value (els_brand s) ∧
  get_value (els_type (typeChanged j s)) = value o ∧
  options (els_code (typeChanged j s)) =
    Option "Select Code" "" ::
      (codeOption <$> listCodes (DB s) (get_value (els_brand s)) (value o)) ∧
  disabled (els_code (typeChanged j s)) = false.
Proof.
  intros Hj Hb Ht. unfold typeChanged.
  destruct (updateCodes_frame None (on_type (pick j) s)) as (HDB & Hbrand & Htype).
  pose proof (updateCodes_options None (on_type (pick j) s)) as Hopts.
  pose proof (updateCodes_disabled None (on_type (pick j) s)) as Hdis.
  change (DB (on_type (pick j) s)) with (DB s) in *.
  change (els_brand (on_type (pick j) s)) with (els_brand s) in *.
  change (els_type (on_type (pick j) s)) with (pick j (els_type s)) in *.
  rewrite (get_value_pick _ _ _ Hj) in Hopts, Hdis.
  rewrite bool_decide_eq_false_2 in Hdis by naive_solver.
  split_and!; [done|by rewrite Hbrand| |done|done].
  rewrite Htype. by apply get_value_pick.
Qed.

Lemma codeChanged_post s k o :
  options (els_code s) !! k = Some o →
  get_value (els_brand (codeChanged k s)) = get_value (els_brand s) ∧
  get_value (els_type (codeChanged k s)) = get_value (els_type s) ∧
  get_value (els_code (codeChanged k s)) = value o ∧
  match findExact (DB s) (get_value (els_brand s)) (get_value (els_type s)) (value o) with
  | Some e => displays e (codeChanged k s)
  | None => card_hidden (codeChanged k s) = true
  end.
Proof.
  intros Hk. unfold codeChanged.
  destruct (renderSolution_frame (on_code (pick k) s)) as (_ & -> & -> & ->).
  change (els_brand (on_code (pick k) s)) with (els_brand s).
  change (els_type (on_code (pick k) s)) with (els_type s).
  change (els_code (on_code (pick k) s)) with (pick k (els_code s)).
  rewrite (get_value_pick _ _ _ Hk). split_and!; [done..|].
  rewrite renderSolution_lookup.
  change (DB (on_code (pick k) s)) with (DB s).
  change (els_brand (on_code (pick k) s)) with (els_brand s).
  change (els_type (on_code (pick k) s)) with (els_type s).
  change (els_code (on_code (pick k) s)) with (pick k (els_code s)).
  rewrite (get_value_pick _ _ _ Hk).
  destruct (findExact _ _ _ _) as [e|]; [by repeat split|done].
Qed.

Lemma elem_of_listCodes DB b t e :
  e ∈ listCodes DB b t → e ∈ DB ∧ brand e = b ∧ type e = t.
Proof.
  unfold listCodes, codes. case_decide; [by rewrite elem_of_nil|].
  rewrite list_elem_of_filter. naive_solver.
Qed.

Lemma findExact_own_key DB e :
  e ∈ DB →
  ∃ e', findExact DB (brand e) (type e) (code e) = Some e' ∧
        has_key (brand e) (type e) (code e) e' ∧
        (unique_keys DB → e' = e).
Proof.
  intros He.
  destruct (findExact DB (brand e) (type e) (code e)) as [e'|] eqn:Hfind.
  - exists e'. pose proof Hfind as (i & Hi & Hkey & _)%findExact_Some.
    split_and!; [done..|]. intros Huniq.
    apply list_elem_of_lookup_1 in He as [j Hj].
    rewrite (Huniq j i e e' Hj Hi Hkey), Hi in Hj. by injection Hj.
  - rewrite findExact_None in Hfind. by destruct (Hfind e He).
Qed.

(** X9. Choosing through the drop-downs shows the choice. When the user
    picks a brand option of non-empty value [b], then the option of a
    non-empty type [t] offered for it, then the option of an entry [e0]
    offered for both, each pick is one the page allows and the card ends
    showing the first catalog entry with the brand, type and code of
    [e0], which is [e0] itself when the keys of the catalog are unique. *)
Theorem cascade_shows_choice s i j k ob t e0 :
  let b := value ob in
  let s1 := brandChanged i s in
  let s2 := typeChanged (S j) s1 in
  let s3 := codeChanged (S k) s2 in
  options (els_brand s) !! i = Some ob → b ≠ "" →
  listTypes (DB s) b !! j = Some t → t ≠ "" →
  listCodes (DB s) b t !! k = Some e0 →
  interact s s1 ∧ interact s1 s2 ∧ interact s2 s3 ∧
  get_value (els_brand s3) = b ∧ get_value (els_type s3) = t ∧
  get_value (els_code s3) = code e0 ∧
  ∃ e, findExact (DB s) b t (code e0) = Some e ∧ displays e s3 ∧
       (unique_keys (DB s) → e = e0).
Proof.
  intros b s1 s2 s3 Hi Hb Hj Ht Hk. subst s3 s2 s1.
  destruct (brandChanged_post s i ob Hi Hb) as (HDB1 & Hb1 & Hopts1 & Hdis1).
  assert (interact s (brandChanged i s)) as Hstep1.
  { constructor. by eapply lookup_lt_Some. }
  fold b in Hb1, Hopts1.
  revert Hstep1 HDB1 Hb1 Hopts1 Hdis1.
  generalize (brandChanged i s). intros s1 Hstep1 HDB1 Hb1 Hopts1 Hdis1.
  assert (options (els_type s1) !! S j = Some (Option t t)) as Hj1.
  { rewrite Hopts1. simpl. by rewrite list_lookup_fmap, Hj. }
  destruct (typeChanged_post s1 (S j) (Option t t) Hj1)
    as (HDB2 & Hb2 & Ht2 & Hopts2 & Hdis2); [by rewrite Hb1|done|].
  assert (interact s1 (typeChanged (S j) s1)) as Hstep2.
  { constructor; [done|]. by eapply lookup_lt_Some. }
  rewrite Hb1, HDB1 in Hopts2. rewrite Hb1 in Hb2. rewrite HDB1 in HDB2.
  change (value (Option t t)) with t in *.
  revert Hstep2 HDB2 Hb2 Ht2 Hopts2 Hdis2.
  generalize (typeChanged (S j) s1). intros s2 Hstep2 HDB2 Hb2 Ht2 Hopts2 Hdis2.
  assert (options (els_code s2) !! S k = Some (codeOption e0)) as Hk2.
  { rewrite Hopts2. simpl. by rewrite list_lookup_fmap, Hk. }
  destruct (codeChanged_post s2 (S k) (codeOption e0) Hk2) as (Hb3 & Ht3 & Hc3 & Hcard).
  assert (interact s2 (codeChanged (S k) s2)) as Hstep3.
  { constructor; [done|]. by eapply lookup_lt_Some. }
  rewrite Hb2 in Hb3. rewrite Ht2 in Ht3. rewrite Hb2, Ht2, HDB2 in Hcard.
  change (value (codeOption e0)) with (code e0) in *.
  split_and!; [done..|].
  apply list_elem_of_lookup_2, elem_of_listCodes in Hk as (He0 & Hbe & Hte).
  destruct (findExact_own_key _ _ He0) as (e & Hfind & _ & Huniq).
  rewrite Hbe, Hte in Hfind. rewrite Hfind in Hcard.
  by exists e.
Qed.

(** X10. A search that finds an entry [m] returns with the card hidden and
    no code chosen, the catalog and the options of the brand drop-down as
    they were, and one timer scheduled, which carries the code of [m]: the
    result is shown by the timer, not by the handler. *)
Theorem handleSearch_defers s query m :
  searchText (DB s) query = Some m →
  (handleSearch query s).2 = Some (code m) ∧
  card_hidden (handleSearch query s).1 = true ∧
  get_value (els_code (handleSearch query s).1) = "" ∧
  DB (handleSearch query s).1 = DB s ∧
  options (els_brand (handleSearch query s).1) = options (els_brand s).
Proof.
  intros Hsearch. rewrite (handleSearch_found _ _ _ Hsearch).
  cbn [fst snd].
  destruct (updateTypes_quiet (Some (type m)) (on_brand (set_value (brand m)) s))
    as [-> ->].
  destruct (updateTypes_frame (Some (type m)) (on_brand (set_value (brand m)) s))
    as [-> ->].
  done.
Qed.

(** X11. In every state the page can reach, selecting the brand of any
    catalog entry in the brand drop-down by value succeeds: the drop-down
    reads back that brand. *)
Theorem reachable_brand_selectable s e :
  reachable s → e ∈ DB s →
  get_value (set_value (brand e) (els_brand s)) = brand e.
Proof.
  intros Hreach He. apply get_value_set_value.
  by apply reachable_brands_populated.
Qed.

End Cascade.

(** ** What a search reads *)

Section SearchReach.

Local Arguments String.append !_ _ / : simpl nomatch.

Lemma append_assoc (a b c : string) : (a +:+ b) +:+ c = a +:+ (b +:+ c).
Proof. induction a as [|x a IH]; simpl; [done|by rewrite IH]. Qed.

Lemma append_empty_r (a : string) : a +:+ "" = a.
Proof. induction a as [|x a IH]; simpl; [done|by rewrite IH]. Qed.

Lemma substring_of_refl s : substring_of s s.
Proof. exists "", "". simpl. by rewrite append_empty_r. Qed.

Lemma substring_of_trans q s u :
  substring_of q s → substring_of s u → substring_of q u.
Proof.
  intros (p1 & p2 & ->) (p3 & p4 & ->).
  exists (p3 +:+ p1), (p2 +:+ p4). by rewrite !append_assoc.
Qed.

Lemma substring_of_app_l q s u : substring_of q s → substring_of q (s +:+ u).
Proof.
  intros (p1 & p2 & ->). exists p1, (p2 +:+ u). by rewrite !append_assoc.
Qed.

Lemma substring_of_app_r q s u : substring_of q s → substring_of q (u +:+ s).
Proof.
  intros (p1 & p2 & ->). exists (u +:+ p1), p2. by rewrite !append_assoc.
Qed.

Lemma toLowerCase_app a b :
  toLowerCase (a +:+ b) = toLowerCase a +:+ toLowerCase b.
Proof. induction a as [|x a IH]; simpl; [done|by rewrite IH]. Qed.

Lemma substring_of_lower q s :
  substring_of q s → substring_of (toLowerCase q) (toLowerCase s).
Proof.
  intros (p1 & p2 & ->). exists (toLowerCase p1), (toLowerCase p2).
  by rewrite !toLowerCase_app.
Qed.

(** Trimming removes a prefix and a suffix. *)
Lemma trimStart_suffix s : ∃ pre, s = pre +:+ trimStart s.
Proof.
  induction s as [|c s [pre IH]]; simpl; [by exists ""|].
  destruct (is_white_space c); [|by exists ""].
  exists (String c pre). simpl. by rewrite <-IH.
Qed.

Lemma trimEnd_prefix s : ∃ post, s = trimEnd s +:+ post.
Proof.
  induction s as [|c s [post IH]]; simpl; [by exists ""|].
  destruct (trimEnd s) as [|d u].
  - destruct (is_white_space c); [by exists (String c s)|by exists s].
  - exists post. simpl in *. by rewrite <-IH.
Qed.

Lemma trim_substring s : substring_of (trim s) s.
Proof.
  unfold trim. destruct (trimStart_suffix s) as [pre Hpre].
  destruct (trimEnd_prefix (trimStart s)) as [post Hpost].
  exists pre, post. by rewrite <-Hpost.
Qed.

(** White space around a string is what [trim] removes. *)
Lemma trimStart_blank s : blank s = true → trimStart s = "".
Proof.
  induction s as [|c s IH]; simpl; [done|].
  intros [-> ?]%andb_true_iff. by apply IH.
Qed.

Lemma trimEnd_blank s : blank s = true → trimEnd s = "".
Proof.
  induction s as [|c s IH]; simpl; [done|].
  intros [-> ?]%andb_true_iff. by rewrite IH.
Qed.

Lemma trimStart_blank_app pre s :
  blank pre = true → trimStart (pre +:+ s) = trimStart s.
Proof.
  induction pre as [|c pre IH]; simpl; [done|].
  intros [-> ?]%andb_true_iff. by apply IH.
Qed.

Lemma trimEnd_app_blank s post :
  blank post = true → trimEnd (s +:+ post) = trimEnd s.
Proof.
  intros Hpost. induction s as [|c s IH]; simpl.
  - by apply trimEnd_blank.
  - by rewrite IH.
Qed.

Lemma trim_app_blank s post : blank post = true → trim (s +:+ post) = trim s.
Proof.
  intros Hpost. unfold trim. induction s as [|c s IH]; simpl.
  - by rewrite trimStart_blank.
  - destruct (is_white_space c); [done|].
    by apply (trimEnd_app_blank (String c s)).
Qed.

Lemma trim_padded pre s post :
  blank pre = true → blank post = true → trim (pre +:+ s +:+ post) = trim s.
Proof.
  intros Hpre Hpost. rewrite <-(trim_app_blank s post Hpost).
  unfold trim. by rewrite trimStart_blank_app.
Qed.

Lemma searchText_normalize DB q q' :
  normalize q = normalize q' → searchText DB q = searchText DB q'.
Proof. intros Heq. unfold searchText. by rewrite Heq. Qed.

(** X12. The search reads the query up to letter case and to white space
    around it: two queries that are equal once lower-cased, one of them
    wrapped in white space, are answered alike on every catalog. *)
Theorem searchText_query_form DB pre q post q' :
  blank pre = true → blank post = true → toLowerCase q = toLowerCase q' →
  searchText DB (pre +:+ q +:+ post) = searchText DB q'.
Proof.
  intros Hpre Hpost Hcase. apply searchText_normalize.
  rewrite normalize_trim_lower, trim_padded, <-normalize_trim_lower by done.
  unfold normalize. by rewrite Hcase.
Qed.

Lemma fullString_fields e e' :
  brand e' = brand e → code e' = code e → issue e' = issue e →
  fix_summary e' = fix_summary e → fullString e' = fullString e.
Proof. unfold fullString. by intros -> -> -> ->. Qed.

(** X13. The search reads four fields only, brand, code, issue and
    fix_summary: changing anything else in the entries (type, parts,
    links) changes neither which position is found nor, up to that change,
    the entry returned. *)
Theorem searchText_reads_four_fields DB f query :
  keeps_search_fields f →
  searchText (f <$> DB) query = f <$> searchText DB query.
Proof.
  intros Hf. unfold searchText. case_decide; [done|]. unfold findMatch.
  rewrite list_find_fmap.
  rewrite (list_find_ext _ (λ item, includes (fullString item) (normalize query) = true)).
  - by destruct (list_find _ DB) as [[i m]|].
  - intros e. simpl. destruct (Hf e) as (? & ? & ? & ?).
    by rewrite (fullString_fields e (f e)).
Qed.

Lemma field_in_fullString e x :
  x ∈ [brand e; code e; issue e; fix_summary e] →
  substring_of (normalize x) (fullString e).
Proof.
  intros Hx. rewrite normalize_trim_lower. unfold fullString.
  apply substring_of_lower.
  eapply substring_of_trans; [apply trim_substring|].
  repeat (apply elem_of_cons in Hx as [-> |Hx]).
  - apply substring_of_app_l, substring_of_refl.
  - apply substring_of_app_r, substring_of_app_r, substring_of_app_l, substring_of_refl.
  - do 4 apply substring_of_app_r. apply substring_of_app_l, substring_of_refl.
  - do 6 apply substring_of_app_r. apply substring_of_refl.
  - by apply elem_of_nil in Hx.
Qed.

(** X14. Every entry can be searched by any of its four searched fields:
    when the brand, code, issue or fix_summary of the entry at position
    [j], once normalized, has at least two code units, the search for it
    finds an entry, at position [j] or before. *)
Theorem entry_found_by_field DB j e x :
  DB !! j = Some e →
  x ∈ [brand e; code e; issue e; fix_summary e] →
  2 ≤ String.length (normalize x) →
  ∃ i m, i ≤ j ∧ DB !! i = Some m ∧ searchText DB x = Some m.
Proof.
  intros Hj Hx Hlen. pose proof (field_in_fullString e x Hx) as Hsub.
  destruct (searchText DB x) as [m|] eqn:Hfind.
  - apply searchText_Some in Hfind as (i & Hi & _ & Hleast); [|done].
    exists i, m. split_and!; [|done..].
    destruct (decide (i ≤ j)) as [|Hgt]; [done|].
    destruct (Hleast j e Hj); [lia|done].
  - destruct (proj1 (searchText_None DB x Hlen) Hfind e); [|done].
    by eapply list_elem_of_lookup_2.
Qed.

End SearchReach.

(** ** Brands, types and codes together *)

Section CascadeLists.

Variable DB : list Entry.

Lemma elem_of_listBrands b : b ∈ listBrands DB ↔ ∃ e, e ∈ DB ∧ brand e = b.
Proof.
  unfold listBrands. rewrite sort_Permutation, elem_of_Set_of, list_elem_of_fmap.
  naive_solver.
Qed.

Lemma elem_of_listTypes b t :
  t ∈ listTypes DB b ↔ b ≠ "" ∧ ∃ e, e ∈ DB ∧ brand e = b ∧ type e = t.
Proof.
  unfold listTypes, availableTypes. case_decide.
  - rewrite elem_of_nil. naive_solver.
  - rewrite elem_of_Set_of, list_elem_of_fmap.
    setoid_rewrite list_elem_of_filter. naive_solver.
Qed.

Lemma elem_of_listCodes_iff b t e :
  e ∈ listCodes DB b t ↔ b ≠ "" ∧ t ≠ "" ∧ e ∈ DB ∧ brand e = b ∧ type e = t.
Proof.
  unfold listCodes, codes. case_decide.
  - rewrite elem_of_nil. naive_solver.
  - rewrite list_elem_of_filter. naive_solver.
Qed.

(** X15. The drop-downs have no dead end: a non-empty brand that is
    offered has at least one type, a non-empty type offered for a brand
    has at least one entry to offer, and the code of every entry offered
    is found by [findExact] under that brand and type. *)
Theorem cascade_no_dead_end b t e :
  (b ∈ listBrands DB → b ≠ "" → listTypes DB b ≠ []) ∧
  (t ∈ listTypes DB b → t ≠ "" → listCodes DB b t ≠ []) ∧
  (e ∈ listCodes DB b t →
     ∃ e', findExact DB b t (code e) = Some e' ∧ has_key b t (code e) e').
Proof.
  split_and!.
  - intros (e1 & He1 & Hb1)%elem_of_listBrands Hb.
    apply (elem_of_not_nil (type e1)), elem_of_listTypes. naive_solver.
  - intros (Hb & e1 & He1 & Hb1 & Ht1)%elem_of_listTypes Ht.
    apply (elem_of_not_nil e1), elem_of_listCodes_iff. naive_solver.
  - intros (_ & _ & He & <- & <-)%elem_of_listCodes_iff.
    destruct (findExact_own_key DB e He) as (e' & Hfind & Hkey & _). eauto.
Qed.

(** X16. The drop-downs reach every well-formed entry: an entry of the
    catalog with non-empty brand and type has its brand among the brands
    offered, its type among the types offered for that brand, and is
    itself among the entries offered for both. *)
Theorem cascade_complete e :
  e ∈ DB → brand e ≠ "" → type e ≠ "" →
  brand e ∈ listBrands DB ∧
  type e ∈ listTypes DB (brand e) ∧
  e ∈ listCodes DB (brand e) (type e).
Proof.
  intros He Hb Ht. split_and!.
  - apply elem_of_listBrands. eauto.
  - apply elem_of_listTypes. eauto.
  - by apply elem_of_listCodes_iff.
Qed.

End CascadeLists.

(** ** The search box *)

Section SearchBox.

Lemma run_typed p vs v :
  run p (Typed <$> (vs ++ [v])) = mkPage (page_state p) (Some v) (renders p).
Proof.
  revert p. induction vs as [|u vs IH]; intros p; [done|].
  simpl. unfold run in IH. by rewrite IH.
Qed.

(** X17. Typing alone never runs a search nor touches the page, and of a
    run of inputs with no expiry of the listener's timer in between only
    the last value is searched: once the listener's timer and then the
    timer of the search have expired, with no earlier search still waiting,
    the page is as [handleSearch] on the last value followed by its
    callback leaves it, and no timer is live. *)
Theorem burst_searches_last p vs v :
  renders p = [] →
  run p (Typed <$> (vs ++ [v])) = mkPage (page_state p) (Some v) [] ∧
  run p ((Typed <$> (vs ++ [v])) ++ [SearchDue; RenderDue]) =
    mkPage (searchAndRender v (page_state p)) None [].
Proof.
  intros Hnone. split; [by rewrite run_typed, Hnone|].
  unfold run at 1. rewrite foldl_app. fold (run p (Typed <$> (vs ++ [v]))).
  rewrite run_typed, Hnone. unfold searchAndRender. simpl.
  by destruct (handleSearch v (page_state p)) as [s [c|]].
Qed.

Lemma interact_step s s' : interact s s' → step s s'.
Proof. destruct 1; by constructor. Qed.

End SearchBox.

(** ** The properties above on the sample pages *)

Lemma sample_choice_run :
  rtc interact Sample.page (codeChanged 1 Sample.page_acme_washer).
Proof.
  unfold Sample.page_acme_washer.
  eapply rtc_l; [|eapply rtc_l; [|eapply rtc_once]].
  - apply (interact_brand 1 Sample.page). vm_compute. lia.
  - apply (interact_type 1 (brandChanged 1 Sample.page)); [reflexivity|].
    vm_compute. lia.
  - apply (interact_code 1 (typeChanged 1 (brandChanged 1 Sample.page)));
      [reflexivity|]. vm_compute. lia.
Qed.

Lemma card_stays_current_witness :
  rtc interact Sample.page (codeChanged 1 Sample.page_acme_washer) ∧
  card_current Sample.page ∧
  card_current (codeChanged 1 Sample.page_acme_washer).
Proof.
  split_and!; [apply sample_choice_run|by apply hidden_current|].
  apply (card_stays_current Sample.page); [apply sample_choice_run|].
  by apply hidden_current.
Defined.

Lemma page_never_stale_witness :
  DB Sample.blank_page = [] ∧ card_hidden Sample.blank_page = true ∧
  rtc interact Sample.blank_page Sample.blank_page ∧
  rtc interact (load Sample.catalog Sample.blank_page)
               (codeChanged 1 Sample.page_acme_washer) ∧
  card_hidden Sample.blank_page = true ∧
  card_hidden (load Sample.catalog Sample.blank_page) = true ∧
  card_current (codeChanged 1 Sample.page_acme_washer).
Proof.
  do 3 (split; [done|]). split; [apply sample_choice_run|].
  apply (page_never_stale Sample.blank_page Sample.blank_page Sample.catalog);
    [done|done|done|apply sample_choice_run].
Defined.

Lemma cascade_shows_choice_witness :
  options (els_brand Sample.page) !! 1 = Some (Option "Acme" "Acme") ∧
  listTypes (DB Sample.page) "Acme" !! 0 = Some "Washer" ∧
  listCodes (DB Sample.page) "Acme" "Washer" !! 1 = Some Sample.acme_f05 ∧
  ∃ e, findExact (DB Sample.page) "Acme" "Washer" "F05" = Some e ∧
       displays e (codeChanged 2 (typeChanged 1 (brandChanged 1 Sample.page))) ∧
       (unique_keys (DB Sample.page) → e = Sample.acme_f05).
Proof.
  split_and!; [reflexivity..|].
  apply (cascade_shows_choice Sample.page 1 0 1 (Option "Acme" "Acme") "Washer"
           Sample.acme_f05); done.
Defined.

Lemma handleSearch_defers_witness :
  searchText (DB Sample.page) "drain" = Some Sample.zanu_f21 ∧
  (handleSearch "drain" Sample.page).2 = Some "F21" ∧
  card_hidden (handleSearch "drain" Sample.page).1 = true ∧
  get_value (els_code (handleSearch "drain" Sample.page).1) = "" ∧
  DB (handleSearch "drain" Sample.page).1 = DB Sample.page ∧
  options (els_brand (handleSearch "drain" Sample.page).1) =
    options (els_brand Sample.page).
Proof.
  split; [reflexivity|].
  apply (handleSearch_defers Sample.page "drain" Sample.zanu_f21). reflexivity.
Defined.

Lemma sample_acme_f21_loaded : Sample.acme_f21 ∈ DB Sample.page.
Proof. apply (list_elem_of_lookup_2 _ 1). reflexivity. Qed.

Lemma reachable_brand_selectable_witness :
  reachable Sample.page ∧ Sample.acme_f21 ∈ DB Sample.page ∧
  get_value (set_value "Acme" (els_brand Sample.page)) = "Acme".
Proof.
  split_and!; [apply sample_page_reachable|apply sample_acme_f21_loaded|].
  apply (reachable_brand_selectable Sample.page Sample.acme_f21).
  - apply sample_page_reachable.
  - apply sample_acme_f21_loaded.
Defined.

Lemma searchText_query_form_witness :
  blank "  " = true ∧ blank " " = true ∧
  toLowerCase "DRAIN" = toLowerCase "drain" ∧
  searchText Sample.catalog ("  " +:+ "DRAIN" +:+ " ") =
    searchText Sample.catalog "drain".
Proof.
  split_and!; [reflexivity..|].
  apply (searchText_query_form Sample.catalog "  " "DRAIN" " " "drain");
    reflexivity.
Defined.

Lemma searchText_reads_four_fields_witness :
  let f := λ e, mkEntry (brand e) "" (code e) (issue e) (fix_summary e) [] "" "" in
  keeps_search_fields f ∧
  searchText (f <$> Sample.catalog) "drain" = f <$> searchText Sample.catalog "drain".
Proof.
  intros f. split; [done|].
  apply (searchText_reads_four_fields Sample.catalog f "drain"). done.
Defined.

Lemma entry_found_by_field_witness :
  Sample.catalog !! 1 = Some Sample.acme_f21 ∧
  2 ≤ String.length (normalize "F21") ∧
  ∃ i m, i ≤ 1 ∧ Sample.catalog !! i = Some m ∧
         searchText Sample.catalog "F21" = Some m.
Proof.
  split_and!; [reflexivity|vm_compute; lia|].
  apply (entry_found_by_field Sample.catalog 1 Sample.acme_f21 "F21").
  - reflexivity.
  - right. left.
  - vm_compute. lia.
Defined.

Lemma cascade_complete_witness :
  Sample.acme_f21 ∈ Sample.catalog ∧
  "Acme" ∈ listBrands Sample.catalog ∧
  "Washer" ∈ listTypes Sample.catalog "Acme" ∧
  Sample.acme_f21 ∈ listCodes Sample.catalog "Acme" "Washer".
Proof.
  assert (Sample.acme_f21 ∈ Sample.catalog) as Hin.
  { apply (list_elem_of_lookup_2 _ 1). reflexivity. }
  split; [exact Hin|].
  apply (cascade_complete Sample.catalog Sample.acme_f21); [exact Hin|done..].
Defined.

Lemma burst_searches_last_witness :
  renders (mkPage Sample.page None []) = [] ∧
  run (mkPage Sample.page None []) (Typed <$> (["d"; "dr"; "dra"] ++ ["drain"])) =
    mkPage Sample.page (Some "drain") [] ∧
  run (mkPage Sample.page None [])
      ((Typed <$> (["d"; "dr"; "dra"] ++ ["drain"])) ++ [SearchDue; RenderDue]) =
    mkPage (searchAndRender "drain" Sample.page) None [].
Proof.
  split; [reflexivity|].
  apply (burst_searches_last (mkPage Sample.page None []) ["d"; "dr"; "dra"] "drain").
  reflexivity.
Defined.

(** ** The search in the words of the specification *)

Section SpecSearch.

Local Arguments String.append !_ _ / : simpl nomatch.

Lemma lower_char_table c : lower_char c = Spec.lower_unit c.
Proof. by destruct c as [[] [] [] [] [] [] [] []]. Qed.

Lemma toLowerCase_lower_cased s : toLowerCase s = Spec.lower_cased s.
Proof.
  induction s as [|c s IH]; simpl; [done|]. by rewrite IH, lower_char_table.
Qed.

Lemma fullString_concatenation item :
  fullString item = Spec.lower_cased (Spec.concatenation item).
Proof. unfold fullString, Spec.concatenation. apply toLowerCase_lower_cased. Qed.

Lemma trimStart_clean t :
  (∀ c r, t = String c r → is_white_space c = false) → trimStart t = t.
Proof. destruct t as [|c r]; simpl; [done|]. intros Hc. by rewrite (Hc c r). Qed.

Lemma trimEnd_clean t :
  (∀ r c, t = r +:+ String c "" → is_white_space c = false) → trimEnd t = t.
Proof.
  induction t as [|a t IH]; simpl; [done|]. intros Hlast.
  rewrite IH.
  - destruct t as [|d u]; [|done]. by rewrite (Hlast "" a).
  - intros r c ->. by apply (Hlast (String a r) c).
Qed.

Lemma trim_clean t : Spec.clean_ends t → trim t = t.
Proof.
  intros [Hfirst Hlast]. unfold trim.
  rewrite trimStart_clean by done. by apply trimEnd_clean.
Qed.

(** The trimmed part of a query is what [trim] returns. *)
Lemma trimmed_trim s t : Spec.trimmed s t → trim s = t.
Proof.
  intros (pre & post & -> & Hpre & Hpost & Hclean).
  rewrite trim_padded by done. by apply trim_clean.
Qed.

Lemma trimStart_split s : ∃ pre, s = pre +:+ trimStart s ∧ blank pre = true.
Proof.
  induction s as [|c s (pre & IH & Hpre)]; simpl; [by exists ""|].
  destruct (is_white_space c) eqn:Hc; [|by exists ""].
  exists (String c pre). simpl. by rewrite <-IH, Hc.
Qed.

Lemma trimEnd_split s : ∃ post, s = trimEnd s +:+ post ∧ blank post = true.
Proof.
  induction s as [|c s (post & IH & Hpost)]; simpl; [by exists ""|].
  destruct (trimEnd s) as [|d u] eqn:Hend.
  - simpl in IH. subst post.
    destruct (is_white_space c) eqn:Hc.
    + exists (String c s). simpl. by rewrite Hc.
    + by exists s.
  - exists post. simpl in *. by rewrite <-IH.
Qed.

Lemma trimEnd_first t c r :
  trimEnd t = String c r → ∃ r', t = String c r'.
Proof.
  destruct t as [|a t]; simpl; [done|].
  destruct (trimEnd t); [destruct (is_white_space a)|]; intros [= <- _]; eauto.
Qed.

Lemma trimStart_first t c r :
  trimStart t = String c r → is_white_space c = false.
Proof.
  induction t as [|a t IH]; simpl; [done|].
  destruct (is_white_space a) eqn:Ha; [done|]. by intros [= <- _].
Qed.

Lemma trimEnd_last t r c :
  trimEnd t = r +:+ String c "" → is_white_space c = false.
Proof.
  revert r. induction t as [|a t IH]; intros r; simpl.
  - by destruct r.
  - destruct (trimEnd t) as [|d u] eqn:Hend.
    + destruct (is_white_space a) eqn:Ha; [by destruct r|].
      destruct r as [|x [|y r]]; simpl; [by intros [= <-]|done..].
    + destruct r as [|x r]; simpl; [done|].
      intros [= <- Hr]. by apply (IH r).
Qed.

(** Every query has a trimmed part: the statements about it cover every
    query. *)
Lemma trim_trimmed s : Spec.trimmed s (trim s).
Proof.
  unfold trim. destruct (trimStart_split s) as (pre & Hs & Hpre).
  destruct (trimEnd_split (trimStart s)) as (post & Ht & Hpost).
  exists pre, post. split_and!; [by rewrite <-Ht|done..|]. split.
  - intros c r Heq. destruct (trimEnd_first _ _ _ Heq) as [r' Hstart].
    by eapply trimStart_first.
  - intros r c Heq. by eapply trimEnd_last.
Qed.

Lemma normalize_spec query core :
  Spec.trimmed query core → normalize query = Spec.lower_cased core.
Proof.
  intros Htrim. rewrite normalize_trim_lower, (trimmed_trim _ _ Htrim).
  apply toLowerCase_lower_cased.
Qed.

(** C1. Let [core] be the query without the white space around it and [q]
    its lower-cased form, of at least two code units. [searchText] returns
    the entry of lowest index whose "brand code issue fix_summary",
    lower-cased, contains [q] as a substring, and not-found exactly when no
    entry does; when two entries match, the one returned is at the
    position of the earlier or before it. Trimming, lower-casing and the
    concatenation are those of [Spec], not the script's own. *)
Theorem searchText_first_match DB query core :
  Spec.trimmed query core →
  let q := Spec.lower_cased core in
  2 ≤ String.length q →
  (∀ m, searchText DB query = Some m ↔
     ∃ i, DB !! i = Some m ∧ Spec.matches q m ∧
          ∀ j e, DB !! j = Some e → j < i → ¬ Spec.matches q e) ∧
  (searchText DB query = None ↔ ∀ e, e ∈ DB → ¬ Spec.matches q e) ∧
  (∀ i j e1 e2, DB !! i = Some e1 → DB !! j = Some e2 → i < j →
     Spec.matches q e1 → Spec.matches q e2 →
     ∃ k m, k ≤ i ∧ DB !! k = Some m ∧ searchText DB query = Some m).
Proof.
  intros Htrim q Hlen.
  pose proof (normalize_spec _ _ Htrim) as Hq. fold q in Hq.
  assert (2 ≤ String.length (normalize query)) as Hlen' by (by rewrite Hq).
  pose proof (λ m, searchText_Some DB query m Hlen') as Hsome.
  pose proof (searchText_None DB query Hlen') as Hnone.
  rewrite Hq in Hnone. setoid_rewrite Hq in Hsome.
  setoid_rewrite fullString_concatenation in Hnone.
  setoid_rewrite fullString_concatenation in Hsome.
  fold (Spec.matches q) in Hsome.
  split_and!; [done..|].
  intros i j e1 e2 Hi Hj Hlt H1 H2.
  destruct (searchText DB query) as [m|] eqn:Hfind.
  - destruct (proj1 (Hsome m) eq_refl) as (k & Hk & Hqm & Hleast).
    exists k, m. split_and!; [|done..].
    destruct (decide (k ≤ i)) as [|Hgt]; [done|].
    exfalso. apply (Hleast i e1); [done|lia|done].
  - exfalso. apply (proj1 Hnone eq_refl e1); [|done].
    by eapply list_elem_of_lookup_2.
Qed.

Lemma searchText_first_match_witness :
  Spec.trimmed "  DRAIN " "DRAIN" ∧
  2 ≤ String.length (Spec.lower_cased "DRAIN") ∧
  searchText Sample.catalog "  DRAIN " = Some Sample.zanu_f21.
Proof.
  assert (Spec.trimmed "  DRAIN " "DRAIN") as Htrim by apply (trim_trimmed "  DRAIN ").
  assert (2 ≤ String.length (Spec.lower_cased "DRAIN")) as Hlen by (vm_compute; lia).
  split_and!; [done..|].
  apply (proj1 (searchText_first_match Sample.catalog "  DRAIN " "DRAIN" Htrim Hlen)).
  exists 0. split_and!.
  - reflexivity.
  - apply includes_spec. reflexivity.
  - intros j e _ Hj. lia.
Defined.

End SpecSearch.

(** ** The queries over parsed JSON *)

Section JsQueries.

(** A callback that throws on no element of the array is a function on
    it. *)
Lemma array_map_normal {A B} (f : A → Js.Completion B) (g : A → B) l :
  Forall (λ x, f x = Js.Normal (g x)) l → Js.array_map f l = Js.Normal (g <$> l).
Proof. induction 1 as [|x l Hx _ IH]; simpl; [done|]. by rewrite Hx, IH. Qed.

Lemma array_filter_normal {A} (f : A → Js.Completion bool) (g : A → bool) l :
  Forall (λ x, f x = Js.Normal (g x)) l →
  Js.array_filter f l = Js.Normal (filter (λ x, g x = true) l).
Proof.
  induction 1 as [|x l Hx _ IH]; simpl; [done|]. rewrite Hx, IH. simpl.
  rewrite filter_cons. by destruct (g x).
Qed.

Lemma array_find_normal {A} (f : A → Js.Completion bool) (g : A → bool) l :
  Forall (λ x, f x = Js.Normal (g x)) l →
  Js.array_find f l = Js.Normal (snd <$> list_find (λ x, g x = true) l).
Proof.
  induction 1 as [|x l Hx _ IH]; simpl; [done|]. rewrite Hx. simpl.
  destruct (g x); simpl; [done|]. rewrite IH.
  by destruct (list_find _ l) as [[i y]|].
Qed.

Lemma get_object item name :
  Js.is_object item → Js.get item name = Js.Normal (Js.prop name item).
Proof. by destruct item. Qed.

Lemma objects_filter (P : Js.Item → Prop) `{∀ x, Decision (P x)} DB :
  Forall Js.is_object DB → Forall Js.is_object (filter P DB).
Proof.
  rewrite !Forall_forall. intros Hall item [_ Hin]%list_elem_of_filter. by apply Hall.
Qed.

Lemma elem_of_array_sort l v : v ∈ Js.array_sort l ↔ v ∈ l.
Proof.
  unfold Js.array_sort. rewrite elem_of_app, list_elem_of_fmap, list_elem_of_filter.
  setoid_rewrite sort_Permutation. setoid_rewrite list_elem_of_omap. split.
  - intros [(s & -> & [[|s'] [Hin [= ->]]])|[-> ?]]; done.
  - intros Hin. destruct v as [|s]; [by right|]. left. exists s. split; [done|].
    by exists (Js.Str s).
Qed.

(** The five queries on an array of objects: no property access throws,
    and the result is the one of the pure filters. *)
Lemma listBrands_objects DB :
  Forall Js.is_object DB →
  Js.listBrands DB = Js.Normal (Js.array_sort (Set_of (Js.prop "brand" <$> DB))).
Proof.
  intros Hobj. unfold Js.listBrands.
  rewrite (array_map_normal _ (Js.prop "brand")); [done|].
  eapply Forall_impl; [done|]. intros item. apply get_object.
Qed.

Lemma listTypes_objects DB b :
  Forall Js.is_object DB →
  Js.listTypes DB b =
  Js.Normal (if decide (b = "") then []
          else Set_of (Js.prop "type" <$> filter (λ item, Js.brand_is b item = true) DB)).
Proof.
  intros Hobj. unfold Js.listTypes. case_decide; [done|].
  rewrite (array_filter_normal _ (Js.brand_is b)).
  - simpl. rewrite (array_map_normal _ (Js.prop "type")); [done|].
    eapply Forall_impl; [by apply objects_filter|]. intros item. apply get_object.
  - eapply Forall_impl; [done|]. intros item Hitem.
    by rewrite (get_object _ _ Hitem).
Qed.

Lemma listCodes_objects DB b t :
  Forall Js.is_object DB →
  Js.listCodes DB b t =
  Js.Normal (if decide (b = "" ∨ t = "") then []
          else filter (λ item, Js.brand_type_are b t item = true) DB).
Proof.
  intros Hobj. unfold Js.listCodes. case_decide; [done|].
  apply (array_filter_normal _ (Js.brand_type_are b t)).
  eapply Forall_impl; [done|]. intros item Hitem.
  rewrite (get_object _ _ Hitem). simpl. unfold Js.brand_type_are.
  destruct (Js.strict_eq _ b); [|done]. by rewrite (get_object _ _ Hitem).
Qed.

Lemma findExact_objects DB b t c :
  Forall Js.is_object DB →
  Js.findExact DB b t c =
  Js.Normal (snd <$> list_find (λ item, Js.key_is b t c item = true) DB).
Proof.
  intros Hobj. unfold Js.findExact.
  apply (array_find_normal _ (Js.key_is b t c)).
  eapply Forall_impl; [done|]. intros item Hitem.
  rewrite (get_object _ _ Hitem). simpl. unfold Js.key_is.
  destruct (Js.strict_eq _ b); [|done]. rewrite (get_object _ _ Hitem). simpl.
  destruct (Js.strict_eq _ t); [|done]. by rewrite (get_object _ _ Hitem).
Qed.

Lemma searchText_objects DB query :
  Forall Js.is_object DB →
  Js.searchText DB query =
  Js.Normal (if decide (String.length (normalize query) < 2) then None
          else snd <$> list_find
                 (λ item, includes (Js.text item) (normalize query) = true) DB).
Proof.
  intros Hobj. unfold Js.searchText. case_decide; [done|].
  apply (array_find_normal _ (λ item, includes (Js.text item) (normalize query))).
  eapply Forall_impl; [done|]. intros item Hitem.
  unfold Js.fullString. by rewrite !(get_object _ _ Hitem).
Qed.

Lemma brand_type_are_true b t item :
  Js.brand_type_are b t item = true ↔
  Js.prop "brand" item = Js.Str b ∧ Js.prop "type" item = Js.Str t.
Proof.
  unfold Js.brand_type_are, Js.strict_eq. case_bool_decide.
  - rewrite bool_decide_eq_true. naive_solver.
  - naive_solver.
Qed.

Lemma key_is_true b t c item : Js.key_is b t c item = true ↔ Js.has_key b t c item.
Proof.
  unfold Js.key_is, Js.has_key, Js.strict_eq. repeat case_bool_decide; naive_solver.
Qed.

(** An entry, encoded: an object with the strings of the entry. *)
Lemma encode_objects entries : Forall Js.is_object (Js.encode <$> entries).
Proof. apply Forall_fmap, Forall_forall. by intros e _. Qed.

Lemma Set_of_fmap_inj {A B} `{EqDecision A, EqDecision B} (f : A → B)
    `{!Inj (=) (=) f} (l : list A) :
  Set_of (f <$> l) = f <$> Set_of l.
Proof.
  induction l as [|x l IH] using rev_ind; [done|].
  rewrite fmap_app. simpl. rewrite !Set_of_snoc, IH. unfold Set_add.
  destruct (decide (x ∈ Set_of l)) as [Hin|Hin].
  - rewrite decide_True; [done|]. by apply list_elem_of_fmap_2.
  - rewrite decide_False; [by rewrite fmap_app|].
    by intros ?%(list_elem_of_fmap_inj_2 f).
Qed.

Lemma array_sort_strings l : Js.array_sort (Js.Str <$> l) = Js.Str <$> sort l.
Proof.
  unfold Js.array_sort.
  assert (omap Js.field_string (Js.Str <$> l) = l) as ->.
  { induction l as [|s l IH]; csimpl; [done|]. by rewrite IH. }
  assert (filter (λ v, v = Js.Undefined) (Js.Str <$> l) = []) as ->.
  { induction l as [|s l IH]; csimpl; [done|]. by rewrite filter_cons_False. }
  by rewrite app_nil_r.
Qed.

Lemma filter_fmap_iff {A B} (f : A → B) (P : B → Prop) (Q : A → Prop)
    `{∀ y, Decision (P y), ∀ x, Decision (Q x)} (l : list A) :
  (∀ x, P (f x) ↔ Q x) → filter P (f <$> l) = f <$> filter Q l.
Proof.
  intros HPQ. induction l as [|x l IH]; [done|].
  rewrite fmap_cons, !filter_cons, IH.
  destruct (decide (Q x)) as [HQ|HQ].
  - rewrite decide_True; [done|]. by apply HPQ.
  - rewrite decide_False; [done|]. by rewrite HPQ.
Qed.

Lemma find_fmap_iff {A B} (f : A → B) (P : B → Prop) (Q : A → Prop)
    `{∀ y, Decision (P y), ∀ x, Decision (Q x)} (l : list A) :
  (∀ x, P (f x) ↔ Q x) →
  snd <$> list_find P (f <$> l) = f <$> (snd <$> list_find Q l).
Proof.
  intros HPQ. rewrite list_find_fmap, (list_find_ext _ Q) by done.
  by destruct (list_find Q l) as [[i x]|].
Qed.

Lemma text_encode e : Js.text (Js.encode e) = fullString e.
Proof. done. Qed.

(** On the objects of a catalog of entries the five queries return,
    without throwing, what the queries on the entries return. *)
Lemma queries_on_entries entries b t c query :
  Js.listBrands (Js.encode <$> entries) = Js.Normal (Js.Str <$> listBrands entries) ∧
  Js.listTypes (Js.encode <$> entries) b = Js.Normal (Js.Str <$> listTypes entries b) ∧
  Js.listCodes (Js.encode <$> entries) b t = Js.Normal (Js.encode <$> listCodes entries b t) ∧
  Js.findExact (Js.encode <$> entries) b t c = Js.Normal (Js.encode <$> findExact entries b t c) ∧
  Js.searchText (Js.encode <$> entries) query = Js.Normal (Js.encode <$> searchText entries query).
Proof.
  pose proof (encode_objects entries) as Hobj. split_and!.
  - rewrite listBrands_objects by done. unfold listBrands.
    rewrite <-list_fmap_compose.
    change (Js.prop "brand" ∘ Js.encode) with (Js.Str ∘ brand).
    by rewrite (list_fmap_compose brand Js.Str), (Set_of_fmap_inj Js.Str),
      array_sort_strings.
  - rewrite listTypes_objects by done. unfold listTypes, availableTypes.
    case_decide; [done|].
    rewrite (filter_fmap_iff Js.encode _ (λ item, brand item = b)).
    + rewrite <-list_fmap_compose.
      change (Js.prop "type" ∘ Js.encode) with (Js.Str ∘ type).
      by rewrite (list_fmap_compose type Js.Str), (Set_of_fmap_inj Js.Str).
    + intros e. unfold Js.brand_is, Js.strict_eq. rewrite bool_decide_eq_true.
      simpl. naive_solver.
  - rewrite listCodes_objects by done. unfold listCodes, codes.
    case_decide; [done|].
    rewrite (filter_fmap_iff Js.encode _ (λ item, brand item = b ∧ type item = t)); [done|].
    intros e. rewrite brand_type_are_true. simpl. naive_solver.
  - rewrite findExact_objects by done. unfold findExact.
    rewrite (find_fmap_iff Js.encode _
               (λ item, brand item = b ∧ type item = t ∧ code item = c)); [done|].
    intros e. rewrite key_is_true. unfold Js.has_key. simpl. naive_solver.
  - rewrite searchText_objects by done. unfold searchText, findMatch.
    case_decide; [done|].
    by rewrite (find_fmap_iff Js.encode _
                  (λ item, includes (fullString item) (normalize query) = true)).
Qed.

(** C7. Over what [response.json()] may hold, where reading a property of
    [null] throws: on every array of objects, with any properties present
    or absent, and for every choice of strings, each of the five queries
    returns normally, with the brands, types, entries or entry that the
    array determines, an empty array or not-found included; on a catalog
    of entries the results are those of the queries on the entries; and on
    the empty array the results are empty or not-found. *)
Theorem queries_never_throw DB entries b t c query :
  Forall Js.is_object DB →
  (∃ r, Js.listBrands DB = Js.Normal r ∧
        ∀ v, v ∈ r ↔ ∃ item, item ∈ DB ∧ Js.prop "brand" item = v) ∧
  (∃ r, Js.listTypes DB b = Js.Normal r ∧
        ∀ v, v ∈ r ↔ b ≠ "" ∧
          ∃ item, item ∈ DB ∧ Js.prop "brand" item = Js.Str b ∧ Js.prop "type" item = v) ∧
  (∃ r, Js.listCodes DB b t = Js.Normal r ∧
        ∀ item, item ∈ r ↔ b ≠ "" ∧ t ≠ "" ∧ item ∈ DB ∧
          Js.prop "brand" item = Js.Str b ∧ Js.prop "type" item = Js.Str t) ∧
  (∃ r, Js.findExact DB b t c = Js.Normal r ∧
        (∀ item, r = Some item → item ∈ DB ∧ Js.has_key b t c item) ∧
        (r = None → ∀ item, item ∈ DB → ¬ Js.has_key b t c item)) ∧
  (∃ r, Js.searchText DB query = Js.Normal r ∧
        (∀ item, r = Some item →
           item ∈ DB ∧ 2 ≤ String.length (normalize query) ∧
           substring_of (normalize query) (Js.text item)) ∧
        (r = None →
           String.length (normalize query) < 2 ∨
           ∀ item, item ∈ DB → ¬ substring_of (normalize query) (Js.text item))) ∧
  (Js.listBrands (Js.encode <$> entries) = Js.Normal (Js.Str <$> listBrands entries) ∧
   Js.listTypes (Js.encode <$> entries) b = Js.Normal (Js.Str <$> listTypes entries b) ∧
   Js.listCodes (Js.encode <$> entries) b t =
     Js.Normal (Js.encode <$> listCodes entries b t) ∧
   Js.findExact (Js.encode <$> entries) b t c =
     Js.Normal (Js.encode <$> findExact entries b t c) ∧
   Js.searchText (Js.encode <$> entries) query =
     Js.Normal (Js.encode <$> searchText entries query)) ∧
  (Js.listBrands [] = Js.Normal [] ∧ Js.listTypes [] b = Js.Normal [] ∧
   Js.listCodes [] b t = Js.Normal [] ∧ Js.findExact [] b t c = Js.Normal None ∧
   Js.searchText [] query = Js.Normal None).
Proof.
  intros Hobj. split_and!.
  - eexists. split; [by apply listBrands_objects|]. intros v.
    rewrite elem_of_array_sort, elem_of_Set_of, list_elem_of_fmap. naive_solver.
  - eexists. split; [by apply listTypes_objects|]. intros v. case_decide.
    + rewrite elem_of_nil. naive_solver.
    + rewrite elem_of_Set_of, list_elem_of_fmap.
      setoid_rewrite list_elem_of_filter. unfold Js.brand_is, Js.strict_eq.
      setoid_rewrite bool_decide_eq_true. naive_solver.
  - eexists. split; [by apply listCodes_objects|]. intros item. case_decide.
    + rewrite elem_of_nil. naive_solver.
    + rewrite list_elem_of_filter, brand_type_are_true. naive_solver.
  - eexists. split; [by apply findExact_objects|]. split.
    + intros item (i & Hi & Hkey & _)%find_first.
      split; [by eapply list_elem_of_lookup_2|by apply key_is_true].
    + intros Hnone item Hin Hkey%key_is_true.
      by apply (proj1 (find_none (λ item, Js.key_is b t c item = true) DB) Hnone item).
  - eexists. split; [by apply searchText_objects|]. case_decide as Hlen; split.
    + done.
    + by left.
    + intros item (i & Hi & Hinc%includes_spec & _)%find_first.
      split_and!; [by eapply list_elem_of_lookup_2|lia|done].
    + intros Hnone. right. intros item Hin Hsub%includes_spec.
      by apply (proj1 (find_none
                  (λ item, includes (Js.text item) (normalize query) = true) DB)
                  Hnone item).
  - apply (queries_on_entries entries b t c query).
  - apply (queries_on_entries entries b t c query).
  - apply (queries_on_entries entries b t c query).
  - apply (queries_on_entries entries b t c query).
  - apply (queries_on_entries entries b t c query).
  - done.
  - unfold Js.listTypes. by case_decide.
  - unfold Js.listCodes. by case_decide.
  - done.
  - unfold Js.searchText. by case_decide.
Qed.

(** An item that is [null] makes the queries throw: the outcome that the
    theorem excludes exists. *)
Example null_item_throws :
  Js.listBrands [Js.encode Sample.acme_f21; Js.Null] = Js.ThrowTypeError ∧
  Js.listTypes [Js.Null] "Acme" = Js.ThrowTypeError ∧
  Js.listCodes [Js.Null] "Acme" "Washer" = Js.ThrowTypeError ∧
  Js.findExact [Js.Null] "Acme" "Washer" "F21" = Js.ThrowTypeError ∧
  Js.searchText [Js.Null] "drain" = Js.ThrowTypeError ∧
  Js.searchText [Js.Null] "x" = Js.Normal None.
Proof. by split_and!. Qed.

(** A missing property does not: it reads [undefined], which equals no
    string and is searched as the text "undefined". *)
Example missing_property_sample :
  let item := Js.Obj (λ name, if decide (name = "brand") then Js.Str "Acme" else Js.Undefined) in
  Js.listBrands [item] = Js.Normal [Js.Str "Acme"] ∧
  Js.listTypes [item] "Acme" = Js.Normal [Js.Undefined] ∧
  Js.listCodes [item] "Acme" "Washer" = Js.Normal [] ∧
  Js.findExact [item] "Acme" "Washer" "F21" = Js.Normal None ∧
  Js.searchText [item] "undefined" = Js.Normal (Some item).
Proof. by split_and!. Qed.

Lemma queries_never_throw_witness :
  Forall Js.is_object [Js.encode Sample.acme_f21; Js.Obj (λ _, Js.Undefined)] ∧
  ∃ r, Js.listBrands [Js.encode Sample.acme_f21; Js.Obj (λ _, Js.Undefined)] = Js.Normal r ∧
       ∀ v, v ∈ r ↔ ∃ item, item ∈ [Js.encode Sample.acme_f21; Js.Obj (λ _, Js.Undefined)] ∧
                            Js.prop "brand" item = v.
Proof.
  assert (Forall Js.is_object [Js.encode Sample.acme_f21; Js.Obj (λ _, Js.Undefined)]) as Hobj.
  { by repeat constructor. }
  split; [exact Hobj|].
  apply (queries_never_throw [Js.encode Sample.acme_f21; Js.Obj (λ _, Js.Undefined)]
           Sample.catalog "Acme" "Washer" "F21" "drain" Hobj).
Defined.

End JsQueries.
